(** * crater: the memory management unit and the host display set-up

    A shallow embedding of [src/mmu.c] (the paging MMU of the Game Gear
    emulator) and of the SDL set-up code of [src/emulator.c], together with
    the properties the specification states about them.

    Conventions.
    - C integers are [Z].  A value of type [uint8_t], [uint16_t] or
      [unsigned] lies in the range of its type; where the C code converts a
      wider [int] to such a type (an argument [addr + 1] handed to a
      [uint16_t] parameter, a [uint16_t] return value) the conversion is
      written out with [u8], [u16] or [u32].
    - A pointer to ROM data is [option loc]: [None] is the null pointer and
      [Some (Loc o i)] points [i] bytes into the object [o].  The objects
      (the ROM images, which the MMU only borrows through
      [const uint8_t *]) live in a store [gmap nat (list Z)] that no MMU
      function can write.
    - The arrays of the [MMU] struct are lists, indexed with stdpp's lookup
      and updated with stdpp's insert. *)

From Stdlib Require Import ZArith Lia Bool.
From stdpp Require Import base tactics option numbers list list_numbers gmap.

Local Open Scope Z_scope.

(** ** Fixed-width integers *)

Definition u8 (x : Z) : Z := x mod 2 ^ 8.
Definition u16 (x : Z) : Z := x mod 2 ^ 16.
Definition u32 (x : Z) : Z := x mod 2 ^ 32.

Definition is_u8 (x : Z) : Prop := 0 <= x < 2 ^ 8.
Definition is_u16 (x : Z) : Prop := 0 <= x < 2 ^ 16.

(** ** Constants of mmu.h *)

(** Modelled from the spec: [mmu.h] is not part of the source tree; the
    specification gives three pageable slots (section 3, "Slot table"). *)
Definition MMU_NUM_SLOTS : Z := 3.

(** Modelled from the spec: [mmu.h] is not part of the source tree; the
    specification gives an array of 64 ROM bank references (section 4.1). *)
Definition MMU_NUM_ROM_BANKS : Z := 64.

(** Modelled from the spec: [mmu.h] is not part of the source tree; a bank
    is a 16 KiB slice of a ROM image (glossary; also the comment above
    [mmu_load_rom]). *)
Definition MMU_ROM_BANK_SIZE : Z := 16 * 1024.

(** Modelled from the spec: [mmu.h] is not part of the source tree; the
    system RAM is 8 KiB (section 4.1). *)
Definition MMU_SYSTEM_RAM_SIZE : Z := 8 * 1024.

(** ** Pointers into ROM images *)

Record loc : Type := Loc { loc_obj : nat; loc_ofs : Z }.

Abbreviation NULL := (@None loc).

(** [p + n] on a non-null [const uint8_t *]. *)
Definition loc_add (p : loc) (n : Z) : loc :=
  Loc (loc_obj p) (loc_ofs p + n).

(** [p[i]]: the byte [i] places after [p].  [None] stands for an access
    outside the object [p] points into, which C leaves undefined. *)
Definition load_u8 (rom : gmap nat (list Z)) (p : loc) (i : Z) : option Z :=
  img ← rom !! loc_obj p;
  if decide (0 <= loc_ofs p + i) then img !! Z.to_nat (loc_ofs p + i)
  else None.

(** ** The MMU object *)

(** Modelled from the spec: the struct is declared in [mmu.h], which is not
    part of the source tree.  The fields are the three [mmu.c] uses, with
    the state the specification lists (section 4.1): the system RAM, a
    three-entry slot table and an array of 64 ROM bank references, each a
    bank reference that may be null. *)
Record MMU : Type := mkMMU {
  system_ram : list Z;
  map_slots : list (option loc);
  rom_banks : list (option loc)
}.

Definition set_system_ram (mmu : MMU) (ram : list Z) : MMU :=
  mkMMU ram (map_slots mmu) (rom_banks mmu).
Definition set_map_slots (mmu : MMU) (slots : list (option loc)) : MMU :=
  mkMMU (system_ram mmu) slots (rom_banks mmu).
Definition set_rom_banks (mmu : MMU) (banks : list (option loc)) : MMU :=
  mkMMU (system_ram mmu) (map_slots mmu) banks.

(** [for (i = lo; i < hi; i++) body], for a body that always completes. *)
Definition for_range {S : Type} (lo hi : Z) (body : Z → S → S) (s : S) : S :=
  foldl (λ acc i, body i acc) s (seqZ lo (hi - lo)).

(** The same loop for a body that may fail to complete. *)
Definition for_range_opt {S : Type} (lo hi : Z) (body : Z → S → option S)
    (s : S) : option S :=
  foldl (λ acc i, acc ≫= body i) (Some s) (seqZ lo (hi - lo)).

(** [memset(buf, c, n)] on a buffer of at least [n] bytes. *)
Definition memset (buf : list Z) (c n : Z) : list Z :=
  replicate (Z.to_nat n `min` length buf) c ++ drop (Z.to_nat n) buf.

(** [mmu_init].  [cr_malloc] hands back a block of [MMU_SYSTEM_RAM_SIZE]
    bytes of unspecified content, here the argument [block]; the struct
    itself ([mmu]) is storage the caller owns, also of unspecified content. *)
Definition mmu_init (mmu : MMU) (block : list Z) : MMU :=
  let mmu := set_system_ram mmu block in
  let mmu :=
    for_range 0 MMU_NUM_SLOTS
      (λ slot m, set_map_slots m (<[Z.to_nat slot := NULL]> (map_slots m)))
      mmu in
  for_range 0 MMU_NUM_ROM_BANKS
    (λ bank m, set_rom_banks m (<[Z.to_nat bank := NULL]> (rom_banks m)))
    mmu.

(** The inner loop of [mmu_load_rom]:
    [for (mirror = bank; mirror < MMU_NUM_ROM_BANKS; mirror += banks)
       mmu->rom_banks[mirror] = data + (bank * MMU_ROM_BANK_SIZE);]
    entered at [mirror].  The loop steps by [banks], so the model carries
    fuel; [None] means the fuel ran out before the loop condition failed. *)
Fixpoint mirror_loop (fuel : nat) (data : loc) (banks bank mirror : Z)
    (mmu : MMU) : option MMU :=
  match fuel with
  | O => None
  | S fuel' =>
      if decide (mirror < MMU_NUM_ROM_BANKS) then
        mirror_loop fuel' data banks bank (mirror + banks)
          (set_rom_banks mmu
             (<[Z.to_nat mirror := Some (loc_add data (bank * MMU_ROM_BANK_SIZE))]>
                (rom_banks mmu)))
      else Some mmu
  end.

(** Fuel for one run of the inner loop: with [banks >= 1] it makes at most
    [MMU_NUM_ROM_BANKS] assignments and one last test. *)
Definition mirror_fuel : nat := Z.to_nat (MMU_NUM_ROM_BANKS + 1).

(** [mmu_load_rom].  [size] is a [size_t]; none of the arithmetic below
    leaves its range ([bank < 64], [mirror + banks <= 63 + 64]).  The debug
    dump of the bank table only prints and is left out. *)
Definition mmu_load_rom (mmu : MMU) (data : loc) (size : Z) : option MMU :=
  if decide (size mod MMU_ROM_BANK_SIZE ≠ 0) then Some mmu
  else
    let banks := size / MMU_ROM_BANK_SIZE in
    let banks :=
      if decide (banks > MMU_NUM_ROM_BANKS) then MMU_NUM_ROM_BANKS else banks in
    for_range_opt 0 banks
      (λ bank m, mirror_loop mirror_fuel data banks bank bank m) mmu.

(** [map_slot]: [mmu->map_slots[slot] = mmu->rom_banks[bank]]. *)
Definition map_slot (mmu : MMU) (slot bank : Z) : MMU :=
  set_map_slots mmu
    (<[Z.to_nat slot := rom_banks mmu !!! Z.to_nat bank]> (map_slots mmu)).

(** [mmu_power]. *)
Definition mmu_power (mmu : MMU) : MMU :=
  let mmu := for_range 0 MMU_NUM_SLOTS (λ slot m, map_slot m slot slot) mmu in
  set_system_ram mmu (memset (system_ram mmu) 0xFF MMU_SYSTEM_RAM_SIZE).

(** [bank_byte_read]: [bank ? bank[addr] : 0xFF]. *)
Definition bank_byte_read (rom : gmap nat (list Z)) (bank : option loc)
    (addr : Z) : option Z :=
  match bank with
  | Some p => load_u8 rom p addr
  | None => Some 0xFF
  end.

(** [mmu_read_byte]. *)
Definition mmu_read_byte (rom : gmap nat (list Z)) (mmu : MMU) (addr : Z)
    : option Z :=
  if decide (addr < 0x0400) then
    bank_byte_read rom (rom_banks mmu !!! 0%nat) addr
  else if decide (addr < 0x4000) then
    bank_byte_read rom (map_slots mmu !!! 0%nat) addr
  else if decide (addr < 0x8000) then
    bank_byte_read rom (map_slots mmu !!! 1%nat) (addr - 0x4000)
  else if decide (addr < 0xC000) then
    bank_byte_read rom (map_slots mmu !!! 2%nat) (addr - 0x8000)
  else if decide (addr < 0xE000) then
    system_ram mmu !! Z.to_nat (addr - 0xC000)
  else
    system_ram mmu !! Z.to_nat (addr - 0xE000).

(** [mmu_read_double].  Both operands are promoted to [int]; the second
    address [addr + 1] is converted back to [uint16_t] by the call, and the
    sum to [uint16_t] by the return. *)
Definition mmu_read_double (rom : gmap nat (list Z)) (mmu : MMU) (addr : Z)
    : option Z :=
  lo ← mmu_read_byte rom mmu addr;
  hi ← mmu_read_byte rom mmu (u16 (addr + 1));
  Some (u16 (lo + Z.shiftl hi 8)).

(** [mmu_write_byte]: the success flag and the MMU after the call. *)
Definition mmu_write_byte (mmu : MMU) (addr value : Z) : bool * MMU :=
  if decide (addr < 0xC000) then (false, mmu)
  else if decide (addr < 0xE000) then
    (true,
     set_system_ram mmu (<[Z.to_nat (addr - 0xC000) := value]> (system_ram mmu)))
  else
    let mmu :=
      if decide (addr = 0xFFFC) then mmu
      else if decide (addr = 0xFFFD) then map_slot mmu 0 (Z.land value 0x3F)
      else if decide (addr = 0xFFFE) then map_slot mmu 1 (Z.land value 0x3F)
      else if decide (addr = 0xFFFF) then map_slot mmu 2 (Z.land value 0x3F)
      else mmu in
    (true,
     set_system_ram mmu (<[Z.to_nat (addr - 0xE000) := value]> (system_ram mmu))).

(** [mmu_write_double]: both byte writes are made, then the flags are
    combined. *)
Definition mmu_write_double (mmu : MMU) (addr value : Z) : bool * MMU :=
  let '(b1, mmu) := mmu_write_byte mmu addr (Z.land value 0xFF) in
  let '(b2, mmu) := mmu_write_byte mmu (u16 (addr + 1)) (u8 (Z.shiftr value 8)) in
  (b1 && b2, mmu).

(** ** Sequences of MMU operations *)

(** The calls that can change an MMU.  The read functions take a
    [const MMU *] and return only a value, so they do not appear here. *)
Inductive mmu_op : Type :=
  | OpLoadRom (data : loc) (size : Z)
  | OpPower
  | OpWriteByte (addr value : Z)
  | OpWriteDouble (addr value : Z).

Definition exec_op (op : mmu_op) (mmu : MMU) : option MMU :=
  match op with
  | OpLoadRom data size => mmu_load_rom mmu data size
  | OpPower => Some (mmu_power mmu)
  | OpWriteByte addr value => Some (snd (mmu_write_byte mmu addr value))
  | OpWriteDouble addr value => Some (snd (mmu_write_double mmu addr value))
  end.

Fixpoint run (ops : list mmu_op) (mmu : MMU) : option MMU :=
  match ops with
  | [] => Some mmu
  | op :: ops' => exec_op op mmu ≫= run ops'
  end.

(** The operations that leave the bank table alone: the writes (paging
    writes included) and power-on. *)
Definition keeps_banks (op : mmu_op) : Prop :=
  match op with
  | OpLoadRom _ _ => False
  | _ => True
  end.

(** The arguments of an operation have the types the C prototypes give
    them: [uint16_t] addresses, [uint8_t] and [uint16_t] values. *)
Definition op_typed (op : mmu_op) : Prop :=
  match op with
  | OpLoadRom _ size => 0 <= size
  | OpPower => True
  | OpWriteByte addr value => is_u16 addr ∧ is_u8 value
  | OpWriteDouble addr value => is_u16 addr ∧ is_u16 value
  end.

(** ** Well-formedness *)

(** The three arrays have the sizes [mmu.h] declares and [mmu_init]
    allocates. *)
Definition mmu_wf (mmu : MMU) : Prop :=
  Z.of_nat (length (system_ram mmu)) = MMU_SYSTEM_RAM_SIZE
  ∧ Z.of_nat (length (map_slots mmu)) = MMU_NUM_SLOTS
  ∧ Z.of_nat (length (rom_banks mmu)) = MMU_NUM_ROM_BANKS.

(** [data] points at [size] readable bytes of some ROM object. *)
Definition rom_image (rom : gmap nat (list Z)) (data : loc) (size : Z) : Prop :=
  ∃ blk, rom !! loc_obj data = Some blk
         ∧ 0 <= loc_ofs data
         ∧ loc_ofs data + size <= Z.of_nat (length blk).

(** Every stored byte is a [uint8_t]. *)
Definition ram_bytes (mmu : MMU) : Prop := Forall is_u8 (system_ram mmu).
Definition rom_bytes (rom : gmap nat (list Z)) : Prop :=
  map_Forall (λ _ blk, Forall is_u8 blk) rom.

#[global] Instance is_u8_dec x : Decision (is_u8 x).
Proof. unfold is_u8. apply _. Defined.
#[global] Instance ram_bytes_dec mmu : Decision (ram_bytes mmu).
Proof. unfold ram_bytes. apply _. Defined.
#[global] Instance rom_bytes_dec rom : Decision (rom_bytes rom).
Proof. unfold rom_bytes. apply _. Defined.

(** The number of banks [mmu_load_rom] works with. *)
Definition bank_count (size : Z) : Z :=
  Z.min (size / MMU_ROM_BANK_SIZE) MMU_NUM_ROM_BANKS.

(** ** The host side: emulator.c *)

Definition GG_SCREEN_WIDTH : Z := 160 + 96.
Definition GG_SCREEN_HEIGHT : Z := 144 + 48.

(** [sizeof(uint32_t)]: a 32-bit type of 8-bit bytes. *)
Definition sizeof_uint32_t : Z := 4.

Inductive pixel_format : Type :=
  | SDL_PIXELFORMAT_ARGB8888
  | SDL_PIXELFORMAT_RGBA8888.

Inductive texture_access : Type :=
  | SDL_TEXTUREACCESS_STATIC
  | SDL_TEXTUREACCESS_STREAMING.

Inductive window_flags : Type :=
  | FlagsFullscreenDesktop
  | FlagsBorderlessResizable.

(** What SDL was asked to create. *)
Record Window : Type := mkWindow { win_w : Z; win_h : Z; win_flags : window_flags }.
Record Texture : Type := mkTexture {
  tex_format : pixel_format;
  tex_access : texture_access;
  tex_w : Z;
  tex_h : Z
}.

Record Renderer : Type := mkRenderer { logical_w : Z; logical_h : Z }.

(** The fields of the file-scope [emu] that [setup_graphics] fills in.
    [pixels] is the array [cr_malloc] returned, one [Z] per [uint32_t]
    element. *)
Record Emulator : Type := mkEmulator {
  window : Window;
  renderer : Renderer;
  texture : Texture;
  pixels : list Z
}.

(** The host's answers to the SDL calls of [setup_graphics], and the block
    [cr_malloc] returns for a request of a given number of bytes. *)
Record Host : Type := mkHost {
  sdl_init_ok : bool;
  sdl_window_ok : bool;
  sdl_renderer_ok : bool;
  sdl_texture_ok : bool;
  cr_malloc : Z → list Z
}.

(** A host whose allocator returns what was asked for: a request of [n]
    bytes, read as [uint32_t], has [n / sizeof(uint32_t)] elements. *)
Definition malloc_exact (host : Host) : Prop :=
  ∀ n, 0 <= n → Z.of_nat (length (cr_malloc host n)) = n / sizeof_uint32_t.

Inductive fatal : Type :=
  | FatalInit
  | FatalWindow
  | FatalRenderer
  | FatalTexture.

(** [setup_graphics]: [inl] is a [FATAL] exit, [inr] the state of [emu]
    when the function returns.  [scale] is an [unsigned]; the products
    with the screen size are taken in [unsigned]. *)
Definition setup_graphics (host : Host) (fullscreen : bool) (scale : Z)
    : fatal + Emulator :=
  if negb (sdl_init_ok host) then inl FatalInit
  else
    let flags :=
      if fullscreen then FlagsFullscreenDesktop else FlagsBorderlessResizable in
    let win :=
      mkWindow (u32 (scale * GG_SCREEN_WIDTH)) (u32 (scale * GG_SCREEN_HEIGHT))
        flags in
    if negb (sdl_window_ok host) then inl FatalWindow
    else if negb (sdl_renderer_ok host) then inl FatalRenderer
    else
      let tex :=
        mkTexture SDL_PIXELFORMAT_ARGB8888 SDL_TEXTUREACCESS_STREAMING
          GG_SCREEN_WIDTH GG_SCREEN_HEIGHT in
      if negb (sdl_texture_ok host) then inl FatalTexture
      else
        let px :=
          cr_malloc host (sizeof_uint32_t * GG_SCREEN_WIDTH * GG_SCREEN_HEIGHT) in
        let ren := mkRenderer GG_SCREEN_WIDTH GG_SCREEN_HEIGHT in
        inr (mkEmulator win ren tex px).

(** [draw_frame] hands SDL the whole pixel array ([rect = NULL]) with a
    pitch, the number of bytes per row; the result records the texture
    updated, the rows sent and the pitch. *)
Record FrameUpdate : Type := mkFrameUpdate {
  upd_texture : Texture;
  upd_pixels : list Z;
  upd_pitch : Z
}.

Definition draw_frame (emu : Emulator) : FrameUpdate :=
  mkFrameUpdate (texture emu) (pixels emu) (GG_SCREEN_WIDTH * sizeof_uint32_t).

(** ** A small machine to evaluate the model on *)

(** The storage of an [MMU] struct before [mmu_init]: arrays of the
    declared sizes holding whatever was there. *)
Definition raw_mmu : MMU :=
  mkMMU [] (replicate 3 (Some (Loc 7 1))) (replicate 64 (Some (Loc 7 2))).

Definition fresh_ram : list Z := replicate (Z.to_nat MMU_SYSTEM_RAM_SIZE) 0.

(** A 64 KiB image in which bank [k] is filled with the byte [0x10 + k],
    stored as object 0. *)
Definition demo_image : list Z :=
  flat_map (λ k, replicate (Z.to_nat MMU_ROM_BANK_SIZE) (0x10 + k)) [0; 1; 2; 3].

Definition demo_rom : gmap nat (list Z) := {[ 0%nat := demo_image ]}.
Definition demo_data : loc := Loc 0 0.
Definition demo_size : Z := 4 * MMU_ROM_BANK_SIZE.

Definition demo_mmu : MMU := mmu_init raw_mmu fresh_ram.

(** The machine after [mmu_load_rom] of the image and [mmu_power]. *)
Definition demo_loaded : MMU :=
  from_option mmu_power demo_mmu (mmu_load_rom demo_mmu demo_data demo_size).

(** A session: load the image, power on, write RAM through the low
    window, then make a paging write (scenario B of the specification). *)
Definition demo_ops : list mmu_op :=
  [OpLoadRom demo_data demo_size; OpPower;
   OpWriteByte 0xC000 0x42; OpWriteByte 0xFFFF 0x7F].

(** Power-on followed by paging writes to all three slot registers. *)
Definition paging_ops : list mmu_op :=
  [OpPower; OpWriteByte 0xFFFD 3; OpWriteDouble 0xFFFE 0x0201].

(** The machine at the end of the session. *)
Definition demo_final : MMU := default demo_mmu (run demo_ops demo_mmu).

(** A host on which every SDL call succeeds and whose allocator returns a
    zeroed block of the requested size. *)
Definition demo_host : Host :=
  mkHost true true true true (λ n, replicate (Z.to_nat (n / sizeof_uint32_t)) 0).

(** ** The rest of mmu.c *)

(** [INT_MAX] of a 32-bit [int]. *)
Definition INT_MAX : Z := 2 ^ 31 - 1.

(** [mmu_read_quad].  The four bytes are promoted to [int] and shifted as
    [int]s; the sum is converted to [uint32_t] by the return.  Shifting the
    last byte left by 24 leaves the range of [int] when that byte is 0x80
    or more, which C leaves undefined: the model answers [None] there, as
    it does for a read outside a ROM object. *)
Definition mmu_read_quad (rom : gmap nat (list Z)) (mmu : MMU) (addr : Z)
    : option Z :=
  b0 ← mmu_read_byte rom mmu addr;
  b1 ← mmu_read_byte rom mmu (u16 (addr + 1));
  b2 ← mmu_read_byte rom mmu (u16 (addr + 2));
  b3 ← mmu_read_byte rom mmu (u16 (addr + 3));
  if decide (Z.shiftl b3 24 <= INT_MAX) then
    Some (u32 (b0 + Z.shiftl b1 8 + Z.shiftl b2 16 + Z.shiftl b3 24))
  else None.

(** [p - q] on two [const uint8_t *]: defined when both point into the
    same object. *)
Definition ptr_diff (p : option loc) (q : loc) : option Z :=
  match p with
  | Some a =>
      if decide (loc_obj a = loc_obj q) then Some (loc_ofs a - loc_ofs q)
      else None
  | None => None
  end.

(** [dump_bank_table]: the numbers the function formats, as eight rows of
    eight pairs [(bank, (mmu->rom_banks[bank] - data) >> 14)].  The text
    layout ([snprintf] into the row buffer, the [DEBUG] output) is left
    out. *)
Definition dump_bank_table (mmu : MMU) (data : loc)
    : list (list (Z * option Z)) :=
  (λ group,
     (λ elem,
        let bank := 8 * group + elem in
        (bank,
         d ← ptr_diff (rom_banks mmu !!! Z.to_nat bank) data;
         Some (Z.shiftr d 14)))
     <$> seqZ 0 8)
  <$> seqZ 0 (MMU_NUM_ROM_BANKS / 8).

(** ** References that stay inside their image *)

(** A bank reference is null or points at a whole bank of readable bytes. *)
Definition ref_ok (rom : gmap nat (list Z)) (r : option loc) : Prop :=
  match r with
  | Some p => rom_image rom p MMU_ROM_BANK_SIZE
  | None => True
  end.

Definition mmu_safe (rom : gmap nat (list Z)) (mmu : MMU) : Prop :=
  mmu_wf mmu
  ∧ Forall (ref_ok rom) (map_slots mmu)
  ∧ Forall (ref_ok rom) (rom_banks mmu).

(** An operation a caller may make: a load hands over [size] readable
    bytes (the precondition [data + size] stays inside the image). *)
Definition op_safe (rom : gmap nat (list Z)) (op : mmu_op) : Prop :=
  match op with
  | OpLoadRom data size => rom_image rom data size
  | _ => True
  end.

(** No ROM is loaded: every bank reference and every slot is null. *)
Definition no_rom (mmu : MMU) : Prop :=
  Forall (λ r, r = NULL) (map_slots mmu) ∧ Forall (λ r, r = NULL) (rom_banks mmu).

(** ** Event handling of emulator.c *)

(** The [type] field of an [SDL_Event]; [SDL_QUIT] is SDL's constant. *)
Definition SDL_QUIT : Z := 0x100.

(** [handle_events] on the pending event queue, each event given by its
    [type]: [SDL_PollEvent] takes events off the front until the queue is
    empty.  The result tells whether [gamegear_power_off] was called and
    what is left in the queue. *)
Fixpoint handle_events (queue : list Z) : bool * list Z :=
  match queue with
  | [] => (false, [])
  | e :: queue' =>
      if decide (e = SDL_QUIT) then (true, queue') else handle_events queue'
  end.

(** A queue with a quit event between two key events. *)
Definition demo_queue : list Z := [0x300; 0x301; 0x100; 0x300; 0x100].

(** * Properties *)

(** ** Counted loops *)

Lemma for_range_snoc {S : Type} (body : Z → S → S) (s : S) (n : nat) :
  for_range 0 (Z.of_nat (Datatypes.S n)) body s
  = body (Z.of_nat n) (for_range 0 (Z.of_nat n) body s).
Proof.
  unfold for_range. rewrite !Z.sub_0_r, seqZ_S, foldl_app. reflexivity.
Qed.

Lemma for_range_opt_snoc {S : Type} (body : Z → S → option S) (s : S) (n : nat) :
  for_range_opt 0 (Z.of_nat (Datatypes.S n)) body s
  = for_range_opt 0 (Z.of_nat n) body s ≫= body (Z.of_nat n).
Proof.
  unfold for_range_opt. rewrite !Z.sub_0_r, seqZ_S, foldl_app. reflexivity.
Qed.

Lemma for_range_opt_empty {S : Type} (body : Z → S → option S) (s : S) (hi : Z) :
  hi <= 0 → for_range_opt 0 hi body s = Some s.
Proof.
  intros Hhi. unfold for_range_opt. rewrite seqZ_nil by lia. reflexivity.
Qed.

Lemma for_range_3 {S : Type} (body : Z → S → S) (s : S) :
  for_range 0 3 body s = body 2 (body 1 (body 0 s)).
Proof. reflexivity. Qed.

(** ** The cheap facts about each operation *)

Lemma map_slot_rom_banks mmu slot bank :
  rom_banks (map_slot mmu slot bank) = rom_banks mmu.
Proof. reflexivity. Qed.

Lemma map_slot_system_ram mmu slot bank :
  system_ram (map_slot mmu slot bank) = system_ram mmu.
Proof. reflexivity. Qed.

Lemma map_slot_length mmu slot bank :
  length (map_slots (map_slot mmu slot bank)) = length (map_slots mmu).
Proof. unfold map_slot; simpl. apply length_insert. Qed.

Lemma length_memset buf c n : length (memset buf c n) = length buf.
Proof.
  unfold memset. rewrite length_app, length_replicate, length_drop. lia.
Qed.

Lemma memset_full buf c n :
  Z.of_nat (length buf) = n → memset buf c n = replicate (Z.to_nat n) c.
Proof.
  intros Hn. unfold memset.
  rewrite drop_ge by lia. rewrite app_nil_r. f_equal. lia.
Qed.

Lemma mmu_power_rom_banks mmu : rom_banks (mmu_power mmu) = rom_banks mmu.
Proof. reflexivity. Qed.

Lemma mmu_power_wf mmu : mmu_wf mmu → mmu_wf (mmu_power mmu).
Proof.
  intros (Hram & Hslots & Hbanks). unfold mmu_power, MMU_NUM_SLOTS.
  rewrite for_range_3. repeat split; simpl.
  - rewrite length_memset. exact Hram.
  - rewrite !length_insert. exact Hslots.
  - exact Hbanks.
Qed.

Lemma mmu_write_byte_rom_banks mmu addr value :
  rom_banks (snd (mmu_write_byte mmu addr value)) = rom_banks mmu.
Proof.
  unfold mmu_write_byte. repeat case_decide; reflexivity.
Qed.

Lemma mmu_write_byte_wf mmu addr value :
  mmu_wf mmu → mmu_wf (snd (mmu_write_byte mmu addr value)).
Proof.
  intros (Hram & Hslots & Hbanks). unfold mmu_write_byte, mmu_wf.
  repeat case_decide; simpl; rewrite ?length_insert; auto.
Qed.

Lemma mmu_write_double_rom_banks mmu addr value :
  rom_banks (snd (mmu_write_double mmu addr value)) = rom_banks mmu.
Proof.
  unfold mmu_write_double.
  pose proof (mmu_write_byte_rom_banks mmu addr (Z.land value 0xFF)) as H1.
  destruct (mmu_write_byte mmu addr (Z.land value 0xFF)) as [b1 m1]; simpl in H1.
  pose proof (mmu_write_byte_rom_banks m1 (u16 (addr + 1)) (u8 (Z.shiftr value 8))) as H2.
  destruct (mmu_write_byte m1 (u16 (addr + 1)) (u8 (Z.shiftr value 8))) as [b2 m2].
  simpl in *. congruence.
Qed.

Lemma mmu_write_double_wf mmu addr value :
  mmu_wf mmu → mmu_wf (snd (mmu_write_double mmu addr value)).
Proof.
  intros Hwf. unfold mmu_write_double.
  pose proof (mmu_write_byte_wf mmu addr (Z.land value 0xFF) Hwf) as H1.
  destruct (mmu_write_byte mmu addr (Z.land value 0xFF)) as [b1 m1]; simpl in H1.
  pose proof (mmu_write_byte_wf m1 (u16 (addr + 1)) (u8 (Z.shiftr value 8)) H1) as H2.
  destruct (mmu_write_byte m1 (u16 (addr + 1)) (u8 (Z.shiftr value 8))) as [b2 m2].
  exact H2.
Qed.

(** ** The bank table after [mmu_load_rom] *)

Lemma same_residue_close a b n :
  0 < n → a mod n = b mod n → a <= b < a + n → b = a.
Proof.
  intros Hn Hmod Hab.
  pose proof (Z.div_mod a n ltac:(lia)) as Ha.
  pose proof (Z.div_mod b n ltac:(lia)) as Hb.
  rewrite <- Hmod in Hb.
  assert (n * (b / n - a / n) = b - a) as Hd by lia.
  assert (b / n - a / n = 0) by nia.
  lia.
Qed.

(** One run of the inner loop, entered at [mirror]: it completes, and it
    has assigned exactly the indices from [mirror] up that are congruent to
    [bank] modulo [banks]. *)
Lemma mirror_loop_spec fuel data banks bank mirror mmu :
  0 < banks → 0 <= bank < banks → 0 <= mirror → mirror mod banks = bank →
  Z.max 0 (MMU_NUM_ROM_BANKS - mirror) < Z.of_nat fuel →
  ∃ mmu', mirror_loop fuel data banks bank mirror mmu = Some mmu'
    ∧ system_ram mmu' = system_ram mmu
    ∧ map_slots mmu' = map_slots mmu
    ∧ length (rom_banks mmu') = length (rom_banks mmu)
    ∧ ∀ k : nat, (k < length (rom_banks mmu))%nat →
        rom_banks mmu' !! k =
          if decide (mirror <= Z.of_nat k < MMU_NUM_ROM_BANKS
                     ∧ Z.of_nat k mod banks = bank)
          then Some (Some (loc_add data (bank * MMU_ROM_BANK_SIZE)))
          else rom_banks mmu !! k.
Proof.
  intros Hbanks Hbank.
  revert mirror mmu.
  induction fuel as [|fuel IH]; intros mirror mmu Hmirror Hres Hfuel; [lia|].
  simpl. case_decide as Hlt.
  - destruct (IH (mirror + banks)
                (set_rom_banks mmu
                   (<[Z.to_nat mirror :=
                        Some (loc_add data (bank * MMU_ROM_BANK_SIZE))]>
                      (rom_banks mmu))))
      as (mmu' & Hrun & Hram & Hslots & Hlen & Hlookup).
    + lia.
    + rewrite <- (Z_mod_plus_full mirror 1 banks) in Hres.
      rewrite Z.mul_1_l in Hres. exact Hres.
    + lia.
    + exists mmu'. simpl in *. rewrite length_insert in Hlen, Hlookup.
      repeat split; try assumption.
      intros k Hk. rewrite (Hlookup k Hk).
      destruct (decide (Z.of_nat k = mirror)) as [Heq|Hne].
      * subst mirror. rewrite Nat2Z.id.
        rewrite list_lookup_insert_eq by exact Hk.
        repeat case_decide; try reflexivity; lia.
      * rewrite list_lookup_insert_ne by lia.
        repeat case_decide; try reflexivity; exfalso.
        -- lia.
        -- destruct (decide (Z.of_nat k < mirror + banks)); [|lia].
           apply Hne. apply (same_residue_close mirror (Z.of_nat k) banks); lia.
  - exists mmu. repeat split. intros k Hk. case_decide; [lia|reflexivity].
Qed.

(** The outer loop after its first [n] rounds: every index below
    [MMU_NUM_ROM_BANKS] whose residue is below [n] has been assigned. *)
Lemma load_loop_spec data banks mmu (n : nat) :
  0 < banks → Z.of_nat n <= banks →
  ∃ mmu',
    for_range_opt 0 (Z.of_nat n)
      (λ bank m, mirror_loop mirror_fuel data banks bank bank m) mmu = Some mmu'
    ∧ system_ram mmu' = system_ram mmu
    ∧ map_slots mmu' = map_slots mmu
    ∧ length (rom_banks mmu') = length (rom_banks mmu)
    ∧ ∀ k : nat, (k < length (rom_banks mmu))%nat →
        rom_banks mmu' !! k =
          if decide (Z.of_nat k < MMU_NUM_ROM_BANKS
                     ∧ Z.of_nat k mod banks < Z.of_nat n)
          then Some (Some (loc_add data (Z.of_nat k mod banks * MMU_ROM_BANK_SIZE)))
          else rom_banks mmu !! k.
Proof.
  intros Hpos. induction n as [|n IH]; intros Hn.
  - exists mmu. rewrite for_range_opt_empty by reflexivity.
    repeat split. intros k Hk. case_decide as Hc; [|reflexivity].
    pose proof (Z.mod_pos_bound (Z.of_nat k) banks Hpos). lia.
  - destruct IH as (mmu1 & Hrun1 & Hram1 & Hslots1 & Hlen1 & Hlookup1); [lia|].
    destruct (mirror_loop_spec mirror_fuel data banks (Z.of_nat n) (Z.of_nat n) mmu1)
      as (mmu2 & Hrun2 & Hram2 & Hslots2 & Hlen2 & Hlookup2).
    + lia.
    + lia.
    + lia.
    + apply Z.mod_small. lia.
    + unfold mirror_fuel, MMU_NUM_ROM_BANKS. lia.
    + exists mmu2. split.
      { rewrite for_range_opt_snoc, Hrun1. exact Hrun2. }
      repeat split; try congruence.
      intros k Hk. rewrite Hlookup2 by lia. rewrite Hlookup1 by exact Hk.
      pose proof (Z.mod_pos_bound (Z.of_nat k) banks Hpos) as Hbound.
      pose proof (Z.mod_le (Z.of_nat k) banks ltac:(lia) Hpos) as Hle.
      repeat case_decide; try reflexivity; try (exfalso; lia).
      destruct H as (_ & ->). reflexivity.
Qed.

Lemma bank_count_clamp size :
  (if decide (size / MMU_ROM_BANK_SIZE > MMU_NUM_ROM_BANKS)
   then MMU_NUM_ROM_BANKS else size / MMU_ROM_BANK_SIZE) = bank_count size.
Proof. unfold bank_count. case_decide; lia. Qed.

Lemma bank_count_pos size :
  MMU_ROM_BANK_SIZE <= size → 0 < bank_count size <= MMU_NUM_ROM_BANKS.
Proof.
  intros Hsize. unfold bank_count.
  assert (1 <= size / MMU_ROM_BANK_SIZE).
  { apply Z.div_le_lower_bound; unfold MMU_ROM_BANK_SIZE in *; lia. }
  unfold MMU_NUM_ROM_BANKS. lia.
Qed.

(** [mmu_load_rom] always returns, and touches nothing but the entries of
    the bank table. *)
Lemma mmu_load_rom_total mmu data size :
  ∃ mmu', mmu_load_rom mmu data size = Some mmu'
    ∧ system_ram mmu' = system_ram mmu
    ∧ map_slots mmu' = map_slots mmu
    ∧ length (rom_banks mmu') = length (rom_banks mmu).
Proof.
  unfold mmu_load_rom. case_decide as Hmod; [exists mmu; auto|].
  rewrite bank_count_clamp.
  destruct (decide (0 < bank_count size)) as [Hpos|Hneg].
  - destruct (load_loop_spec data (bank_count size) mmu
                (Z.to_nat (bank_count size)) Hpos ltac:(lia))
      as (mmu' & Hrun & Hram & Hslots & Hlen & _).
    rewrite Z2Nat.id in Hrun by lia. exists mmu'. auto.
  - rewrite for_range_opt_empty by lia. exists mmu. auto.
Qed.

(** A load of at least one bank assigns every entry of the table. *)
Lemma mmu_load_rom_banks mmu data size :
  size mod MMU_ROM_BANK_SIZE = 0 → MMU_ROM_BANK_SIZE <= size →
  Z.of_nat (length (rom_banks mmu)) = MMU_NUM_ROM_BANKS →
  ∃ mmu', mmu_load_rom mmu data size = Some mmu'
    ∧ system_ram mmu' = system_ram mmu
    ∧ map_slots mmu' = map_slots mmu
    ∧ length (rom_banks mmu') = length (rom_banks mmu)
    ∧ ∀ i, 0 <= i < MMU_NUM_ROM_BANKS →
        rom_banks mmu' !! Z.to_nat i =
          Some (Some (loc_add data (i mod bank_count size * MMU_ROM_BANK_SIZE))).
Proof.
  intros Hmod Hsize Hlen0. unfold mmu_load_rom.
  case_decide as Hc; [contradiction|]. rewrite bank_count_clamp.
  pose proof (bank_count_pos size Hsize) as [Hpos Hle].
  destruct (load_loop_spec data (bank_count size) mmu
              (Z.to_nat (bank_count size)) Hpos ltac:(lia))
    as (mmu' & Hrun & Hram & Hslots & Hlen & Hlookup).
  rewrite Z2Nat.id in Hrun, Hlookup by lia.
  exists mmu'. repeat split; try assumption.
  intros i Hi. rewrite Hlookup by lia. rewrite Z2Nat.id by lia.
  pose proof (Z.mod_pos_bound i (bank_count size) Hpos).
  case_decide; [reflexivity|lia].
Qed.

(** ** [mmu_init] *)

Lemma init_banks_loop mmu (n : nat) :
  let mmu' :=
    for_range 0 (Z.of_nat n)
      (λ bank m, set_rom_banks m (<[Z.to_nat bank := NULL]> (rom_banks m))) mmu in
  system_ram mmu' = system_ram mmu
  ∧ map_slots mmu' = map_slots mmu
  ∧ length (rom_banks mmu') = length (rom_banks mmu)
  ∧ ∀ k : nat, (k < n)%nat → (k < length (rom_banks mmu))%nat →
      rom_banks mmu' !! k = Some NULL.
Proof.
  induction n as [|n IH]; simpl.
  - repeat split. intros k Hk. lia.
  - rewrite for_range_snoc. simpl in *.
    destruct IH as (Hram & Hslots & Hlen & Hlookup).
    rewrite length_insert, Nat2Z.id. repeat split; try assumption.
    intros k Hk Hklen. destruct (decide (k = n)) as [->|Hne].
    + apply list_lookup_insert_eq. lia.
    + rewrite list_lookup_insert_ne by lia. apply Hlookup; lia.
Qed.

Lemma init_slots_loop mmu (n : nat) :
  let mmu' :=
    for_range 0 (Z.of_nat n)
      (λ slot m, set_map_slots m (<[Z.to_nat slot := NULL]> (map_slots m))) mmu in
  system_ram mmu' = system_ram mmu
  ∧ rom_banks mmu' = rom_banks mmu
  ∧ length (map_slots mmu') = length (map_slots mmu).
Proof.
  induction n as [|n IH]; simpl.
  - repeat split.
  - rewrite for_range_snoc. simpl in *.
    destruct IH as (Hram & Hbanks & Hlen).
    rewrite length_insert. repeat split; assumption.
Qed.

(** After [mmu_init] the arrays have their declared sizes and no bank is
    loaded. *)
Lemma mmu_init_spec mmu block :
  Z.of_nat (length block) = MMU_SYSTEM_RAM_SIZE →
  Z.of_nat (length (map_slots mmu)) = MMU_NUM_SLOTS →
  Z.of_nat (length (rom_banks mmu)) = MMU_NUM_ROM_BANKS →
  mmu_wf (mmu_init mmu block)
  ∧ system_ram (mmu_init mmu block) = block
  ∧ ∀ i, 0 <= i < MMU_NUM_ROM_BANKS →
      rom_banks (mmu_init mmu block) !! Z.to_nat i = Some NULL.
Proof.
  intros Hblock Hslots Hbanks. unfold mmu_init.
  pose proof (init_slots_loop (set_system_ram mmu block) (Z.to_nat MMU_NUM_SLOTS))
    as (Hs1 & Hs2 & Hs3).
  rewrite Z2Nat.id in Hs1, Hs2, Hs3 by (unfold MMU_NUM_SLOTS; lia).
  set (m1 := for_range 0 MMU_NUM_SLOTS _ _) in *. clearbody m1.
  pose proof (init_banks_loop m1 (Z.to_nat MMU_NUM_ROM_BANKS))
    as (Hb1 & Hb2 & Hb3 & Hb4).
  rewrite Z2Nat.id in Hb1, Hb2, Hb3, Hb4 by (unfold MMU_NUM_ROM_BANKS; lia).
  set (m2 := for_range 0 MMU_NUM_ROM_BANKS _ _) in *. clearbody m2.
  simpl in *. unfold mmu_wf.
  rewrite Hb1, Hb2, Hb3, Hs1, Hs2, Hs3.
  repeat split; try assumption.
  intros i Hi. apply Hb4; rewrite ?Hs2; lia.
Qed.

(** ** Sequences of operations keep the MMU well formed *)

Lemma exec_op_wf op mmu :
  mmu_wf mmu → ∃ mmu', exec_op op mmu = Some mmu' ∧ mmu_wf mmu'.
Proof.
  intros Hwf. destruct op as [data size| |addr value|addr value]; simpl.
  - destruct (mmu_load_rom_total mmu data size)
      as (mmu' & Hrun & Hram & Hslots & Hlen).
    exists mmu'. split; [exact Hrun|].
    destruct Hwf as (H1 & H2 & H3). unfold mmu_wf.
    rewrite Hram, Hslots, Hlen. auto.
  - eexists. split; [reflexivity|]. apply mmu_power_wf, Hwf.
  - eexists. split; [reflexivity|]. apply mmu_write_byte_wf, Hwf.
  - eexists. split; [reflexivity|]. apply mmu_write_double_wf, Hwf.
Qed.

Lemma run_wf ops mmu :
  mmu_wf mmu → ∃ mmu', run ops mmu = Some mmu' ∧ mmu_wf mmu'.
Proof.
  revert mmu. induction ops as [|op ops IH]; intros mmu Hwf; simpl.
  - exists mmu. auto.
  - destruct (exec_op_wf op mmu Hwf) as (mmu1 & Hexec & Hwf1).
    rewrite Hexec. simpl. apply IH, Hwf1.
Qed.

Lemma exec_op_keeps_banks op mmu mmu' :
  keeps_banks op → exec_op op mmu = Some mmu' → rom_banks mmu' = rom_banks mmu.
Proof.
  destruct op as [data size| |addr value|addr value]; simpl; intros Hk Hexec.
  - contradiction.
  - inversion Hexec. apply mmu_power_rom_banks.
  - inversion Hexec. apply mmu_write_byte_rom_banks.
  - inversion Hexec. apply mmu_write_double_rom_banks.
Qed.

Lemma run_keeps_banks ops mmu mmu' :
  Forall keeps_banks ops → run ops mmu = Some mmu' →
  rom_banks mmu' = rom_banks mmu.
Proof.
  intros Hops. revert mmu. induction Hops as [|op ops Hop Hops IH];
    intros mmu Hrun; simpl in Hrun.
  - inversion Hrun. reflexivity.
  - destruct (exec_op op mmu) as [mmu1|] eqn:Hexec; simpl in Hrun; [|discriminate].
    rewrite (IH mmu1 Hrun). eapply exec_op_keeps_banks; eassumption.
Qed.

(** ** Loading a ROM *)

(** C5: for a ROM image whose size [s] is a multiple of 16 KiB with
    16 KiB <= s <= 1 MiB, [mmu_load_rom] returns, and afterwards every bank
    index [i] in [0, 64) references image offset (i mod (s / 16 KiB)) * 16 KiB. *)
Theorem load_rom_bank_mirroring mmu data size i :
  mmu_wf mmu →
  size mod MMU_ROM_BANK_SIZE = 0 →
  MMU_ROM_BANK_SIZE <= size <= MMU_NUM_ROM_BANKS * MMU_ROM_BANK_SIZE →
  0 <= i < MMU_NUM_ROM_BANKS →
  ∃ mmu', mmu_load_rom mmu data size = Some mmu'
    ∧ rom_banks mmu' !! Z.to_nat i =
        Some (Some (loc_add data (i mod (size / MMU_ROM_BANK_SIZE) * MMU_ROM_BANK_SIZE))).
Proof.
  intros (_ & _ & Hlen) Hmod [Hlo Hhi] Hi.
  destruct (mmu_load_rom_banks mmu data size Hmod Hlo Hlen)
    as (mmu' & Hrun & _ & _ & _ & Hlookup).
  exists mmu'. split; [exact Hrun|]. rewrite (Hlookup i Hi).
  replace (bank_count size) with (size / MMU_ROM_BANK_SIZE); [reflexivity|].
  unfold bank_count. apply eq_sym, Z.min_l.
  apply Z.div_le_upper_bound; unfold MMU_ROM_BANK_SIZE, MMU_NUM_ROM_BANKS in *; lia.
Qed.

Lemma demo_mmu_wf : mmu_wf demo_mmu.
Proof. vm_compute. auto. Qed.

Lemma demo_loaded_wf : mmu_wf demo_loaded.
Proof. vm_compute. auto. Qed.

Lemma load_rom_bank_mirroring_witness :
  ∃ mmu', mmu_load_rom demo_mmu demo_data demo_size = Some mmu'
    ∧ rom_banks mmu' !! Z.to_nat 6 =
        Some (Some (loc_add demo_data
                      (6 mod (demo_size / MMU_ROM_BANK_SIZE) * MMU_ROM_BANK_SIZE))).
Proof.
  apply (load_rom_bank_mirroring demo_mmu demo_data demo_size 6).
  - exact demo_mmu_wf.
  - reflexivity.
  - vm_compute. split; discriminate.
  - vm_compute. split; [discriminate|reflexivity].
Defined.

(** C6: for a size that is not a multiple of 16 KiB, [mmu_load_rom]
    returns without reporting anything and leaves the whole MMU (bank
    table, slot table, system RAM) as it was. *)
Theorem load_rom_bad_size_noop mmu data size :
  size mod MMU_ROM_BANK_SIZE ≠ 0 → mmu_load_rom mmu data size = Some mmu.
Proof.
  intros Hmod. unfold mmu_load_rom. case_decide; [reflexivity|contradiction].
Qed.

Lemma load_rom_bad_size_noop_witness :
  mmu_load_rom demo_mmu demo_data 20000 = Some demo_mmu.
Proof.
  apply (load_rom_bad_size_noop demo_mmu demo_data 20000). vm_compute. discriminate.
Defined.

(** C10: an image whose size is a multiple of 16 KiB above 1 MiB is not
    rejected: [mmu_load_rom] works with 64 banks, maps every bank index [i]
    in [0, 64) to image offset i * 16 KiB, and the result is the one the
    first 1 MiB alone gives, so the bytes beyond it are never referenced. *)
Theorem load_rom_clamps_to_64_banks mmu data size :
  mmu_wf mmu →
  size mod MMU_ROM_BANK_SIZE = 0 →
  MMU_NUM_ROM_BANKS * MMU_ROM_BANK_SIZE < size →
  ∃ mmu', mmu_load_rom mmu data size = Some mmu'
    ∧ bank_count size = MMU_NUM_ROM_BANKS
    ∧ (∀ i, 0 <= i < MMU_NUM_ROM_BANKS →
         rom_banks mmu' !! Z.to_nat i =
           Some (Some (loc_add data (i * MMU_ROM_BANK_SIZE)))
         ∧ i * MMU_ROM_BANK_SIZE + MMU_ROM_BANK_SIZE
             <= MMU_NUM_ROM_BANKS * MMU_ROM_BANK_SIZE)
    ∧ mmu_load_rom mmu data (MMU_NUM_ROM_BANKS * MMU_ROM_BANK_SIZE) = Some mmu'.
Proof.
  intros (_ & _ & Hlen) Hmod Hsize.
  assert (bank_count size = MMU_NUM_ROM_BANKS) as Hcount.
  { unfold bank_count. apply Z.min_r.
    apply Z.div_le_lower_bound; unfold MMU_ROM_BANK_SIZE, MMU_NUM_ROM_BANKS in *; lia. }
  destruct (mmu_load_rom_banks mmu data size Hmod) as (mmu' & Hrun & _ & _ & _ & Hlookup).
  { unfold MMU_ROM_BANK_SIZE, MMU_NUM_ROM_BANKS in *; lia. }
  { exact Hlen. }
  exists mmu'. split; [exact Hrun|]. split; [exact Hcount|]. split.
  - intros i Hi. rewrite (Hlookup i Hi), Hcount.
    rewrite Z.mod_small by exact Hi.
    split; [reflexivity|]. unfold MMU_ROM_BANK_SIZE, MMU_NUM_ROM_BANKS in *; lia.
  - rewrite <- Hrun. unfold mmu_load_rom.
    rewrite !bank_count_clamp, Hcount.
    repeat case_decide; try reflexivity; try contradiction.
Qed.

Lemma load_rom_clamps_to_64_banks_witness :
  ∃ mmu', mmu_load_rom demo_mmu demo_data (80 * MMU_ROM_BANK_SIZE) = Some mmu'
    ∧ bank_count (80 * MMU_ROM_BANK_SIZE) = MMU_NUM_ROM_BANKS
    ∧ (∀ i, 0 <= i < MMU_NUM_ROM_BANKS →
         rom_banks mmu' !! Z.to_nat i =
           Some (Some (loc_add demo_data (i * MMU_ROM_BANK_SIZE)))
         ∧ i * MMU_ROM_BANK_SIZE + MMU_ROM_BANK_SIZE
             <= MMU_NUM_ROM_BANKS * MMU_ROM_BANK_SIZE)
    ∧ mmu_load_rom demo_mmu demo_data (MMU_NUM_ROM_BANKS * MMU_ROM_BANK_SIZE)
      = Some mmu'.
Proof.
  apply (load_rom_clamps_to_64_banks demo_mmu demo_data (80 * MMU_ROM_BANK_SIZE)).
  - exact demo_mmu_wf.
  - reflexivity.
  - reflexivity.
Defined.

(** ** Writes *)

(** C3: [mmu_write_byte] returns false exactly when [addr < 0xC000], and
    whenever it returns false the MMU it leaves behind is the MMU it was
    given: system RAM, slot table and bank table.  The ROM images are not
    part of what the function can return, it has no way to change them. *)
Theorem write_byte_false_iff_rom mmu addr value :
  (fst (mmu_write_byte mmu addr value) = false ↔ addr < 0xC000)
  ∧ (fst (mmu_write_byte mmu addr value) = false →
     snd (mmu_write_byte mmu addr value) = mmu).
Proof.
  unfold mmu_write_byte. repeat case_decide; simpl; split;
    try (split; intros; (lia || discriminate || reflexivity));
    intros; (discriminate || reflexivity).
Qed.

Lemma land_0x3F_range v : 0 <= Z.land v 0x3F < MMU_NUM_ROM_BANKS.
Proof.
  change 0x3F with (Z.ones 6). rewrite Z.land_ones by lia.
  unfold MMU_NUM_ROM_BANKS. apply Z.mod_pos_bound. lia.
Qed.

Lemma land_0xFF_0x3F v : Z.land (Z.land v 0xFF) 0x3F = Z.land v 0x3F.
Proof. rewrite <- Z.land_assoc. reflexivity. Qed.

(** C9: [mmu_write_double] at 0xFFFF is not atomic.  The call returns
    false, because the high byte goes to address 0x0000, which is read-only;
    but the low byte has been written: slot 2 holds the reference of bank
    [v & 0x3F], the RAM cell at offset 0x1FFF holds [v & 0xFF], and nothing
    undoes either. *)
Theorem write_double_at_top_not_atomic mmu v :
  mmu_wf mmu →
  is_u16 v →
  fst (mmu_write_double mmu 0xFFFF v) = false
  ∧ map_slots (snd (mmu_write_double mmu 0xFFFF v)) !! 2%nat
    = Some (rom_banks mmu !!! Z.to_nat (Z.land v 0x3F))
  ∧ system_ram (snd (mmu_write_double mmu 0xFFFF v)) !! Z.to_nat 0x1FFF
    = Some (Z.land v 0xFF)
  ∧ snd (mmu_write_double mmu 0xFFFF v)
    = snd (mmu_write_byte mmu 0xFFFF (Z.land v 0xFF)).
Proof.
  intros (Hram & Hslots & Hbanks) _.
  unfold mmu_write_double, mmu_write_byte.
  change (u16 (0xFFFF + 1)) with 0. simpl.
  rewrite land_0xFF_0x3F. unfold map_slot. simpl.
  repeat split.
  - apply list_lookup_insert_eq. unfold MMU_NUM_SLOTS in Hslots. lia.
  - apply list_lookup_insert_eq. unfold MMU_SYSTEM_RAM_SIZE in Hram. lia.
Qed.

Lemma write_double_at_top_not_atomic_witness :
  fst (mmu_write_double demo_loaded 0xFFFF 0x127F) = false
  ∧ map_slots (snd (mmu_write_double demo_loaded 0xFFFF 0x127F)) !! 2%nat
    = Some (rom_banks demo_loaded !!! Z.to_nat (Z.land 0x127F 0x3F))
  ∧ system_ram (snd (mmu_write_double demo_loaded 0xFFFF 0x127F)) !! Z.to_nat 0x1FFF
    = Some (Z.land 0x127F 0xFF)
  ∧ snd (mmu_write_double demo_loaded 0xFFFF 0x127F)
    = snd (mmu_write_byte demo_loaded 0xFFFF (Z.land 0x127F 0xFF)).
Proof.
  apply (write_double_at_top_not_atomic demo_loaded 0x127F).
  - exact demo_loaded_wf.
  - unfold is_u16. lia.
Defined.

(** ** The RAM mirror *)

Lemma ram_index_lt mmu addr :
  mmu_wf mmu → 0xC000 <= addr <= 0xDFFF →
  (Z.to_nat (addr - 0xC000) < length (system_ram mmu))%nat.
Proof. intros (Hram & _) Haddr. unfold MMU_SYSTEM_RAM_SIZE in Hram. lia. Qed.

(** In any well-formed MMU the two windows read the same cell, and a write
    through either window is read back through both. *)
Lemma mirror_windows_agree rom mmu addr :
  mmu_wf mmu → 0xC000 <= addr <= 0xDFFF →
  (∃ b, mmu_read_byte rom mmu addr = Some b
        ∧ mmu_read_byte rom mmu (addr + 0x2000) = Some b)
  ∧ (∀ v, mmu_read_byte rom (snd (mmu_write_byte mmu addr v)) addr = Some v
          ∧ mmu_read_byte rom (snd (mmu_write_byte mmu addr v)) (addr + 0x2000)
            = Some v)
  ∧ (∀ v, mmu_read_byte rom (snd (mmu_write_byte mmu (addr + 0x2000) v)) addr
          = Some v
          ∧ mmu_read_byte rom (snd (mmu_write_byte mmu (addr + 0x2000) v))
              (addr + 0x2000) = Some v).
Proof.
  intros Hwf Haddr. pose proof (ram_index_lt mmu addr Hwf Haddr) as Hidx.
  assert (∀ m, mmu_read_byte rom m addr = system_ram m !! Z.to_nat (addr - 0xC000))
    as Hlo.
  { intros m. unfold mmu_read_byte. repeat case_decide; try lia. reflexivity. }
  assert (∀ m, mmu_read_byte rom m (addr + 0x2000)
               = system_ram m !! Z.to_nat (addr - 0xC000)) as Hhi.
  { intros m. unfold mmu_read_byte. repeat case_decide; try lia.
    f_equal. lia. }
  split; [|split].
  - destruct (lookup_lt_is_Some_2 (system_ram mmu) _ Hidx) as [b Hb].
    exists b. rewrite Hlo, Hhi. auto.
  - intros v. rewrite Hlo, Hhi.
    assert (system_ram (snd (mmu_write_byte mmu addr v))
            = <[Z.to_nat (addr - 0xC000) := v]> (system_ram mmu)) as ->.
    { unfold mmu_write_byte. repeat case_decide; try lia. reflexivity. }
    rewrite list_lookup_insert_eq by exact Hidx. auto.
  - intros v. rewrite Hlo, Hhi.
    assert (system_ram (snd (mmu_write_byte mmu (addr + 0x2000) v))
            = <[Z.to_nat (addr - 0xC000) := v]> (system_ram mmu)) as ->.
    { unfold mmu_write_byte.
      replace (addr + 0x2000 - 0xE000) with (addr - 0xC000) by lia.
      repeat case_decide; try lia; reflexivity. }
    rewrite list_lookup_insert_eq by exact Hidx. auto.
Qed.

(** C2: after any sequence of MMU operations, for every address [addr] in
    [0xC000, 0xDFFF], [mmu_read_byte] at [addr] and at [addr + 0x2000]
    return the same byte, and a byte written through either address is
    read back through both: the two regions are one 8 KiB of storage. *)
Theorem ram_mirror rom mmu0 ops addr :
  mmu_wf mmu0 →
  0xC000 <= addr <= 0xDFFF →
  ∃ mmu, run ops mmu0 = Some mmu
    ∧ (∃ b, mmu_read_byte rom mmu addr = Some b
            ∧ mmu_read_byte rom mmu (addr + 0x2000) = Some b)
    ∧ (∀ v, mmu_read_byte rom (snd (mmu_write_byte mmu addr v)) addr = Some v
            ∧ mmu_read_byte rom (snd (mmu_write_byte mmu addr v)) (addr + 0x2000)
              = Some v)
    ∧ (∀ v, mmu_read_byte rom (snd (mmu_write_byte mmu (addr + 0x2000) v)) addr
            = Some v
            ∧ mmu_read_byte rom (snd (mmu_write_byte mmu (addr + 0x2000) v))
                (addr + 0x2000) = Some v).
Proof.
  intros Hwf Haddr. destruct (run_wf ops mmu0 Hwf) as (mmu & Hrun & Hwf').
  exists mmu. split; [exact Hrun|]. apply mirror_windows_agree; assumption.
Qed.

Lemma ram_mirror_witness :
  ∃ mmu, run demo_ops demo_mmu = Some mmu
    ∧ (∃ b, mmu_read_byte demo_rom mmu 0xDFFF = Some b
            ∧ mmu_read_byte demo_rom mmu (0xDFFF + 0x2000) = Some b)
    ∧ (∀ v, mmu_read_byte demo_rom (snd (mmu_write_byte mmu 0xDFFF v)) 0xDFFF
            = Some v
            ∧ mmu_read_byte demo_rom (snd (mmu_write_byte mmu 0xDFFF v))
                (0xDFFF + 0x2000) = Some v)
    ∧ (∀ v, mmu_read_byte demo_rom
              (snd (mmu_write_byte mmu (0xDFFF + 0x2000) v)) 0xDFFF = Some v
            ∧ mmu_read_byte demo_rom
                (snd (mmu_write_byte mmu (0xDFFF + 0x2000) v))
                (0xDFFF + 0x2000) = Some v).
Proof.
  apply (ram_mirror demo_rom demo_mmu demo_ops 0xDFFF).
  - exact demo_mmu_wf.
  - lia.
Defined.

(** ** Stored bytes stay bytes *)

Lemma land_0xFF_is_u8 v : is_u8 (Z.land v 0xFF).
Proof.
  unfold is_u8. change 0xFF with (Z.ones 8). rewrite Z.land_ones by lia.
  apply Z.mod_pos_bound. lia.
Qed.

Lemma u8_is_u8 x : is_u8 (u8 x).
Proof. unfold is_u8, u8. apply Z.mod_pos_bound. lia. Qed.

Lemma mmu_write_byte_ram_bytes mmu addr value :
  is_u8 value → ram_bytes mmu → ram_bytes (snd (mmu_write_byte mmu addr value)).
Proof.
  intros Hv Hram. unfold mmu_write_byte, ram_bytes in *.
  repeat case_decide; simpl; try assumption; apply Forall_insert; assumption.
Qed.

Lemma mmu_write_double_ram_bytes mmu addr value :
  ram_bytes mmu → ram_bytes (snd (mmu_write_double mmu addr value)).
Proof.
  intros Hram. unfold mmu_write_double.
  pose proof (mmu_write_byte_ram_bytes mmu addr _ (land_0xFF_is_u8 value) Hram) as H1.
  destruct (mmu_write_byte mmu addr (Z.land value 0xFF)) as [b1 m1]; simpl in H1.
  pose proof (mmu_write_byte_ram_bytes m1 (u16 (addr + 1)) _
                (u8_is_u8 (Z.shiftr value 8)) H1) as H2.
  destruct (mmu_write_byte m1 (u16 (addr + 1)) (u8 (Z.shiftr value 8))) as [b2 m2].
  exact H2.
Qed.

Lemma mmu_power_ram_bytes mmu : ram_bytes mmu → ram_bytes (mmu_power mmu).
Proof.
  intros Hram. unfold mmu_power, ram_bytes, memset in *. simpl.
  apply Forall_app. split.
  - apply Forall_replicate. unfold is_u8. lia.
  - apply Forall_drop. exact Hram.
Qed.

(** Operations with arguments of their C types keep every RAM cell a
    [uint8_t]. *)
Lemma run_ram_bytes ops mmu mmu' :
  Forall op_typed ops → ram_bytes mmu → run ops mmu = Some mmu' → ram_bytes mmu'.
Proof.
  intros Hops. revert mmu. induction Hops as [|op ops Hop Hops IH];
    intros mmu Hram Hrun; simpl in Hrun.
  - inversion Hrun. subst. exact Hram.
  - destruct (exec_op op mmu) as [mmu1|] eqn:Hexec; simpl in Hrun; [|discriminate].
    apply (IH mmu1); [|exact Hrun].
    destruct op as [data size| |addr value|addr value]; simpl in Hexec, Hop.
    + destruct (mmu_load_rom_total mmu data size) as (m & Hm & Heq & _).
      rewrite Hexec in Hm. inversion Hm. subst m.
      unfold ram_bytes. rewrite Heq. exact Hram.
    + inversion Hexec. apply mmu_power_ram_bytes, Hram.
    + inversion Hexec. apply mmu_write_byte_ram_bytes; [apply Hop|exact Hram].
    + inversion Hexec. apply mmu_write_double_ram_bytes, Hram.
Qed.

(** ** Reading words *)

Lemma load_u8_range rom p i b :
  rom_bytes rom → load_u8 rom p i = Some b → is_u8 b.
Proof.
  intros Hrom. unfold load_u8.
  destruct (rom !! loc_obj p) as [blk|] eqn:Hblk; simpl; [|discriminate].
  case_decide; [|discriminate]. intros Hb.
  exact (Forall_lookup_1 _ _ _ _ (Hrom _ _ Hblk) Hb).
Qed.

Lemma bank_byte_read_range rom bank addr b :
  rom_bytes rom → bank_byte_read rom bank addr = Some b → is_u8 b.
Proof.
  intros Hrom. destruct bank as [p|]; simpl.
  - apply load_u8_range, Hrom.
  - intros [= <-]. unfold is_u8. lia.
Qed.

(** What [mmu_read_byte] returns is a [uint8_t]. *)
Lemma mmu_read_byte_range rom mmu addr b :
  rom_bytes rom → ram_bytes mmu → mmu_read_byte rom mmu addr = Some b → is_u8 b.
Proof.
  intros Hrom Hram. unfold mmu_read_byte.
  repeat case_decide; intros Hb;
    try (exact (bank_byte_read_range _ _ _ _ Hrom Hb));
    exact (Forall_lookup_1 _ _ _ _ Hram Hb).
Qed.

Lemma byte_add_shift_lor lo hi :
  is_u8 lo → lo + Z.shiftl hi 8 = Z.lor lo (Z.shiftl hi 8).
Proof.
  intros Hlo. apply Z.add_nocarry_lor. apply Z.bits_inj'. intros n Hn.
  rewrite Z.land_spec, Z.bits_0.
  destruct (Z.lt_ge_cases n 8) as [Hlt|Hge].
  - rewrite Z.shiftl_spec_low by exact Hlt. apply andb_false_r.
  - rewrite <- (Z.mod_small lo (2 ^ 8)) by exact Hlo.
    rewrite Z.mod_pow2_bits_high by lia. reflexivity.
Qed.

(** C7: [mmu_read_double] at any address is the little-endian word
    [read_byte(addr) | (read_byte((addr + 1) mod 2^16) << 8)]; at 0xFFFF the
    second byte comes from address 0x0000. *)
Theorem read_double_little_endian rom mmu addr :
  rom_bytes rom →
  ram_bytes mmu →
  mmu_read_double rom mmu addr
  = (lo ← mmu_read_byte rom mmu addr;
     hi ← mmu_read_byte rom mmu ((addr + 1) mod 2 ^ 16);
     Some (Z.lor lo (Z.shiftl hi 8))).
Proof.
  intros Hrom Hram. unfold mmu_read_double, u16.
  destruct (mmu_read_byte rom mmu addr) as [lo|] eqn:Hlo; simpl; [|reflexivity].
  destruct (mmu_read_byte rom mmu ((addr + 1) mod 2 ^ 16)) as [hi|] eqn:Hhi;
    simpl; [|reflexivity].
  pose proof (mmu_read_byte_range _ _ _ _ Hrom Hram Hlo) as Rlo.
  pose proof (mmu_read_byte_range _ _ _ _ Hrom Hram Hhi) as Rhi.
  f_equal. rewrite <- byte_add_shift_lor by exact Rlo.
  apply Z.mod_small. rewrite Z.shiftl_mul_pow2 by lia.
  unfold is_u8 in *. lia.
Qed.

Lemma read_double_little_endian_witness :
  mmu_read_double demo_rom demo_final 0xFFFF
  = (lo ← mmu_read_byte demo_rom demo_final 0xFFFF;
     hi ← mmu_read_byte demo_rom demo_final ((0xFFFF + 1) mod 2 ^ 16);
     Some (Z.lor lo (Z.shiftl hi 8))).
Proof.
  apply (read_double_little_endian demo_rom demo_final 0xFFFF).
  - apply (bool_decide_unpack (rom_bytes demo_rom)). vm_compute. exact I.
  - apply (bool_decide_unpack (ram_bytes demo_final)). vm_compute. exact I.
Defined.

Example read_double_at_top :
  mmu_read_double demo_rom demo_final 0xFFFF = Some 0x107F.
Proof. vm_compute. reflexivity. Qed.

(** ** ROM reads *)

Lemma load_u8_loc_add rom p n i :
  load_u8 rom (loc_add p n) i = load_u8 rom p (n + i).
Proof. unfold load_u8, loc_add. simpl. rewrite Z.add_assoc. reflexivity. Qed.

Lemma rom_image_load rom data size i :
  rom_image rom data size → 0 <= i < size → is_Some (load_u8 rom data i).
Proof.
  intros (blk & Hblk & Hofs & Hlen) Hi. unfold load_u8. rewrite Hblk. simpl.
  case_decide; [|lia]. apply lookup_lt_is_Some_2. lia.
Qed.

Lemma bank_count_fits size :
  MMU_ROM_BANK_SIZE <= size → bank_count size * MMU_ROM_BANK_SIZE <= size.
Proof.
  intros Hsize. unfold bank_count.
  pose proof (Z.mul_div_le size MMU_ROM_BANK_SIZE ltac:(reflexivity)) as Hdiv.
  unfold MMU_ROM_BANK_SIZE, MMU_NUM_ROM_BANKS in *. lia.
Qed.

(** Every bank of a loaded image lies inside the image. *)
Lemma bank_in_image size k i :
  MMU_ROM_BANK_SIZE <= size → 0 <= k → 0 <= i < MMU_ROM_BANK_SIZE →
  0 <= k mod bank_count size * MMU_ROM_BANK_SIZE + i < size.
Proof.
  intros Hsize Hk Hi.
  pose proof (bank_count_pos size Hsize) as [Hpos _].
  pose proof (bank_count_fits size Hsize) as Hfit.
  pose proof (Z.mod_pos_bound k (bank_count size) Hpos) as Hmod.
  unfold MMU_ROM_BANK_SIZE in *. nia.
Qed.

(** The first kilobyte is read through [rom_banks[0]], whatever the slots
    hold. *)
Lemma read_fixed_header rom mmu addr :
  addr < 0x0400 →
  mmu_read_byte rom mmu addr = bank_byte_read rom (rom_banks mmu !!! 0%nat) addr.
Proof. intros Haddr. unfold mmu_read_byte. case_decide; [reflexivity|lia]. Qed.

(** C4: for every address below 0x0400 and after any sequence of writes
    (paging writes included; power-on too), [mmu_read_byte] returns 0xFF
    when no ROM is loaded, and the loaded image's byte at offset [addr]
    when one is: slot remapping never reaches the fixed header. *)
Theorem fixed_header_read rom ops addr :
  0 <= addr < 0x0400 →
  Forall keeps_banks ops →
  (∀ raw block,
     Z.of_nat (length block) = MMU_SYSTEM_RAM_SIZE →
     Z.of_nat (length (map_slots raw)) = MMU_NUM_SLOTS →
     Z.of_nat (length (rom_banks raw)) = MMU_NUM_ROM_BANKS →
     ∃ mmu, run ops (mmu_init raw block) = Some mmu
       ∧ mmu_read_byte rom mmu addr = Some 0xFF)
  ∧ (∀ mmu0 data size,
       mmu_wf mmu0 →
       size mod MMU_ROM_BANK_SIZE = 0 →
       MMU_ROM_BANK_SIZE <= size →
       rom_image rom data size →
       ∃ mmu1 mmu b, mmu_load_rom mmu0 data size = Some mmu1
         ∧ run ops mmu1 = Some mmu
         ∧ load_u8 rom data addr = Some b
         ∧ mmu_read_byte rom mmu addr = Some b).
Proof.
  intros Haddr Hops. split.
  - intros raw block Hblock Hslots Hbanks.
    destruct (mmu_init_spec raw block Hblock Hslots Hbanks) as (Hwf & _ & Hnull).
    destruct (run_wf ops _ Hwf) as (mmu & Hrun & _).
    exists mmu. split; [exact Hrun|].
    rewrite read_fixed_header by lia.
    rewrite (run_keeps_banks _ _ _ Hops Hrun).
    specialize (Hnull 0 ltac:(unfold MMU_NUM_ROM_BANKS; lia)).
    rewrite (list_lookup_total_correct _ _ _ Hnull). reflexivity.
  - intros mmu0 data size Hwf Hmod Hsize Himage.
    pose proof Hwf as (Hram & Hslots & Hbanks).
    destruct (mmu_load_rom_banks mmu0 data size Hmod Hsize Hbanks)
      as (mmu1 & Hload & Hram1 & Hslots1 & Hlen1 & Hlookup).
    assert (mmu_wf mmu1) as Hwf1.
    { unfold mmu_wf. rewrite Hram1, Hslots1, Hlen1. auto. }
    destruct (run_wf ops _ Hwf1) as (mmu & Hrun & _).
    destruct (rom_image_load rom data size addr Himage) as [b Hb].
    { unfold MMU_ROM_BANK_SIZE in Hsize. lia. }
    exists mmu1, mmu, b. repeat split; try assumption.
    rewrite read_fixed_header by lia.
    rewrite (run_keeps_banks _ _ _ Hops Hrun).
    specialize (Hlookup 0 ltac:(unfold MMU_NUM_ROM_BANKS; lia)).
    rewrite (list_lookup_total_correct _ _ _ Hlookup). simpl.
    rewrite load_u8_loc_add, Z.mod_0_l, Z.mul_0_l, Z.add_0_l; [exact Hb|].
    pose proof (bank_count_pos size Hsize). lia.
Qed.

Lemma paging_ops_keep_banks : Forall keeps_banks paging_ops.
Proof. repeat constructor. Qed.

Lemma demo_rom_image : rom_image demo_rom demo_data demo_size.
Proof.
  exists demo_image. split; [apply lookup_singleton_eq|].
  split; vm_compute; discriminate.
Qed.

Lemma fixed_header_read_witness :
  (∀ raw block,
     Z.of_nat (length block) = MMU_SYSTEM_RAM_SIZE →
     Z.of_nat (length (map_slots raw)) = MMU_NUM_SLOTS →
     Z.of_nat (length (rom_banks raw)) = MMU_NUM_ROM_BANKS →
     ∃ mmu, run paging_ops (mmu_init raw block) = Some mmu
       ∧ mmu_read_byte demo_rom mmu 0x38 = Some 0xFF)
  ∧ (∀ mmu0 data size,
       mmu_wf mmu0 →
       size mod MMU_ROM_BANK_SIZE = 0 →
       MMU_ROM_BANK_SIZE <= size →
       rom_image demo_rom data size →
       ∃ mmu1 mmu b, mmu_load_rom mmu0 data size = Some mmu1
         ∧ run paging_ops mmu1 = Some mmu
         ∧ load_u8 demo_rom data 0x38 = Some b
         ∧ mmu_read_byte demo_rom mmu 0x38 = Some b).
Proof.
  apply (fixed_header_read demo_rom paging_ops 0x38).
  - lia.
  - exact paging_ops_keep_banks.
Defined.

Example fixed_header_no_rom :
  (mmu ← run paging_ops demo_mmu; mmu_read_byte demo_rom mmu 0x38) = Some 0xFF.
Proof. vm_compute. reflexivity. Qed.

Example fixed_header_loaded :
  (mmu1 ← mmu_load_rom demo_mmu demo_data demo_size;
   mmu ← run paging_ops mmu1;
   mmu_read_byte demo_rom mmu 0x38) = Some 0x10.
Proof. vm_compute. reflexivity. Qed.

(** ** Paging writes *)

(** A write to 0xFFFE stores and copies the selected bank reference into
    slot 1, where the next read of 0x4000 finds it. *)
Lemma write_0xFFFE_then_read rom mmu v :
  mmu_wf mmu →
  fst (mmu_write_byte mmu 0xFFFE v) = true
  ∧ map_slots (snd (mmu_write_byte mmu 0xFFFE v)) !! 1%nat
    = Some (rom_banks mmu !!! Z.to_nat (Z.land v 0x3F))
  ∧ mmu_read_byte rom (snd (mmu_write_byte mmu 0xFFFE v)) 0x4000
    = bank_byte_read rom (rom_banks mmu !!! Z.to_nat (Z.land v 0x3F)) 0.
Proof.
  intros (Hram & Hslots & Hbanks).
  assert (map_slots (snd (mmu_write_byte mmu 0xFFFE v)) !! 1%nat
          = Some (rom_banks mmu !!! Z.to_nat (Z.land v 0x3F))) as Hslot.
  { unfold mmu_write_byte, map_slot. simpl.
    apply list_lookup_insert_eq. unfold MMU_NUM_SLOTS in Hslots. lia. }
  repeat split.
  - exact Hslot.
  - unfold mmu_read_byte.
    rewrite (list_lookup_total_correct _ _ _ Hslot). reflexivity.
Qed.

(** C1: in every MMU state reached after a successful [mmu_load_rom]
    (every bank reference is then non-null), for every 8-bit [v],
    [mmu_write_byte] at 0xFFFE succeeds and maps slot 1 to bank [v & 0x3F],
    and the next [mmu_read_byte] at 0x4000 returns the first byte of that
    bank, the image byte at offset ((v & 0x3F) mod banks) * 16 KiB. *)
Theorem paging_write_then_read rom mmu0 data size ops v :
  mmu_wf mmu0 →
  size mod MMU_ROM_BANK_SIZE = 0 →
  MMU_ROM_BANK_SIZE <= size →
  rom_image rom data size →
  Forall keeps_banks ops →
  is_u8 v →
  ∃ mmu1 mmu bank b,
    mmu_load_rom mmu0 data size = Some mmu1
    ∧ run ops mmu1 = Some mmu
    ∧ rom_banks mmu !! Z.to_nat (Z.land v 0x3F) = Some (Some bank)
    ∧ bank = loc_add data (Z.land v 0x3F mod bank_count size * MMU_ROM_BANK_SIZE)
    ∧ fst (mmu_write_byte mmu 0xFFFE v) = true
    ∧ map_slots (snd (mmu_write_byte mmu 0xFFFE v)) !! 1%nat = Some (Some bank)
    ∧ load_u8 rom bank 0 = Some b
    ∧ mmu_read_byte rom (snd (mmu_write_byte mmu 0xFFFE v)) 0x4000 = Some b.
Proof.
  intros Hwf Hmod Hsize Himage Hops _.
  pose proof Hwf as (Hram & Hslots & Hbanks).
  destruct (mmu_load_rom_banks mmu0 data size Hmod Hsize Hbanks)
    as (mmu1 & Hload & Hram1 & Hslots1 & Hlen1 & Hlookup).
  assert (mmu_wf mmu1) as Hwf1.
  { unfold mmu_wf. rewrite Hram1, Hslots1, Hlen1. auto. }
  destruct (run_wf ops _ Hwf1) as (mmu & Hrun & Hwf2).
  pose proof (land_0x3F_range v) as Hv.
  specialize (Hlookup _ Hv).
  rewrite <- (run_keeps_banks _ _ _ Hops Hrun) in Hlookup.
  set (bank := loc_add data (Z.land v 0x3F mod bank_count size * MMU_ROM_BANK_SIZE)) in *.
  destruct (rom_image_load rom data size
              (Z.land v 0x3F mod bank_count size * MMU_ROM_BANK_SIZE + 0) Himage)
    as [b Hb].
  { apply bank_in_image; [exact Hsize|lia|unfold MMU_ROM_BANK_SIZE; lia]. }
  rewrite <- load_u8_loc_add in Hb. fold bank in Hb.
  destruct (write_0xFFFE_then_read rom mmu v Hwf2) as (Hok & Hslot & Hread).
  rewrite (list_lookup_total_correct _ _ _ Hlookup) in Hslot, Hread.
  exists mmu1, mmu, bank, b. repeat split; try assumption.
  rewrite Hread. exact Hb.
Qed.

Lemma paging_write_then_read_witness :
  ∃ mmu1 mmu bank b,
    mmu_load_rom demo_mmu demo_data demo_size = Some mmu1
    ∧ run paging_ops mmu1 = Some mmu
    ∧ rom_banks mmu !! Z.to_nat (Z.land 0x47 0x3F) = Some (Some bank)
    ∧ bank = loc_add demo_data
               (Z.land 0x47 0x3F mod bank_count demo_size * MMU_ROM_BANK_SIZE)
    ∧ fst (mmu_write_byte mmu 0xFFFE 0x47) = true
    ∧ map_slots (snd (mmu_write_byte mmu 0xFFFE 0x47)) !! 1%nat = Some (Some bank)
    ∧ load_u8 demo_rom bank 0 = Some b
    ∧ mmu_read_byte demo_rom (snd (mmu_write_byte mmu 0xFFFE 0x47)) 0x4000 = Some b.
Proof.
  apply (paging_write_then_read demo_rom demo_mmu demo_data demo_size paging_ops 0x47).
  - exact demo_mmu_wf.
  - reflexivity.
  - vm_compute. discriminate.
  - exact demo_rom_image.
  - exact paging_ops_keep_banks.
  - unfold is_u8. lia.
Defined.

(** Scenario A of the specification, on the demo image: after the write of
    3 to 0xFFFE the byte at 0x4000 is the fill byte of bank 3. *)
Example scenario_a_remap :
  mmu_read_byte demo_rom (snd (mmu_write_byte demo_loaded 0xFFFE 3)) 0x4000
  = Some 0x13.
Proof. vm_compute. reflexivity. Qed.

(** Scenario B of the specification: the byte written at 0xC000 is read at
    0xE000, the byte written at 0xFFFF is read at 0xDFFF, and that last
    write has mapped slot 2 to bank 0x3F. *)
Example scenario_b_mirror :
  mmu_read_byte demo_rom demo_final 0xE000 = Some 0x42
  ∧ mmu_read_byte demo_rom demo_final 0xDFFF = Some 0x7F
  ∧ map_slots demo_final !! 2%nat = rom_banks demo_final !! Z.to_nat 0x3F.
Proof. vm_compute. auto. Qed.

(** ** The display buffer *)

(** C8: the screen is 160 + 96 = 256 by 144 + 48 = 192 pixels; when
    [setup_graphics] returns, the pixel buffer it allocated (the one
    [emulate] then hands to [gamegear_attach_display]) has exactly
    256 * 192 elements of 32 bits, the texture is ARGB8888 of 256 by 192,
    and [draw_frame] presents that buffer to that texture with rows of
    256 * 4 bytes. *)
Theorem display_buffer_geometry host fullscreen scale :
  sdl_init_ok host = true →
  sdl_window_ok host = true →
  sdl_renderer_ok host = true →
  sdl_texture_ok host = true →
  malloc_exact host →
  GG_SCREEN_WIDTH = 256 ∧ GG_SCREEN_HEIGHT = 192
  ∧ ∃ emu, setup_graphics host fullscreen scale = inr emu
      ∧ Z.of_nat (length (pixels emu)) = 256 * 192
      ∧ sizeof_uint32_t * 8 = 32
      ∧ texture emu
        = mkTexture SDL_PIXELFORMAT_ARGB8888 SDL_TEXTUREACCESS_STREAMING 256 192
      ∧ renderer emu = mkRenderer 256 192
      ∧ upd_texture (draw_frame emu) = texture emu
      ∧ upd_pixels (draw_frame emu) = pixels emu
      ∧ upd_pitch (draw_frame emu) = 256 * 4.
Proof.
  intros Hinit Hwin Hren Htex Hmalloc.
  split; [reflexivity|]. split; [reflexivity|].
  unfold setup_graphics. rewrite Hinit, Hwin, Hren, Htex. simpl.
  eexists. split; [reflexivity|]. simpl.
  repeat split.
  rewrite Hmalloc by (vm_compute; discriminate). reflexivity.
Qed.

Lemma demo_host_malloc_exact : malloc_exact demo_host.
Proof.
  intros n Hn. simpl. rewrite length_replicate.
  apply Z2Nat.id. apply Z.div_pos; [exact Hn|reflexivity].
Qed.

Lemma display_buffer_geometry_witness :
  GG_SCREEN_WIDTH = 256 ∧ GG_SCREEN_HEIGHT = 192
  ∧ ∃ emu, setup_graphics demo_host false 3 = inr emu
      ∧ Z.of_nat (length (pixels emu)) = 256 * 192
      ∧ sizeof_uint32_t * 8 = 32
      ∧ texture emu
        = mkTexture SDL_PIXELFORMAT_ARGB8888 SDL_TEXTUREACCESS_STREAMING 256 192
      ∧ renderer emu = mkRenderer 256 192
      ∧ upd_texture (draw_frame emu) = texture emu
      ∧ upd_pixels (draw_frame emu) = pixels emu
      ∧ upd_pitch (draw_frame emu) = 256 * 4.
Proof.
  apply (display_buffer_geometry demo_host false 3).
  - reflexivity.
  - reflexivity.
  - reflexivity.
  - reflexivity.
  - exact demo_host_malloc_exact.
Defined.

(** ** The model on concrete inputs *)

Example load_rom_four_banks :
  rom_banks demo_loaded !! 6%nat = Some (Some (Loc 0 (2 * 16384)))
  ∧ rom_banks demo_loaded !! 63%nat = Some (Some (Loc 0 (3 * 16384))).
Proof. vm_compute. auto. Qed.

Example load_rom_three_banks :
  (mmu ← mmu_load_rom demo_mmu demo_data (3 * MMU_ROM_BANK_SIZE);
   rom_banks mmu !! 62%nat) = Some (Some (Loc 0 (2 * 16384))).
Proof. vm_compute. reflexivity. Qed.

Example load_rom_eighty_banks :
  (mmu ← mmu_load_rom demo_mmu demo_data (80 * MMU_ROM_BANK_SIZE);
   rom_banks mmu !! 63%nat) = Some (Some (Loc 0 (63 * 16384))).
Proof. vm_compute. reflexivity. Qed.

Example load_rom_empty_image :
  mmu_load_rom demo_mmu demo_data 0 = Some demo_mmu.
Proof. vm_compute. reflexivity. Qed.

Example write_byte_to_rom_refused :
  mmu_write_byte demo_loaded 0xBFFF 0x55 = (false, demo_loaded).
Proof. vm_compute. reflexivity. Qed.

Example write_double_at_top :
  fst (mmu_write_double demo_loaded 0xFFFF 0x127F) = false
  ∧ mmu_read_byte demo_rom (snd (mmu_write_double demo_loaded 0xFFFF 0x127F)) 0xFFFF
    = Some 0x7F
  ∧ mmu_read_byte demo_rom (snd (mmu_write_double demo_loaded 0xFFFF 0x127F)) 0x8000
    = Some 0x13.
Proof. vm_compute. auto. Qed.

(** * Further properties of mmu.c *)

(** ** Reads by region *)

(** The slot window an address below 0xC000 falls in, and the offset the
    read uses inside the bank: slot 0 is indexed by the address itself. *)
Lemma read_slot_window rom mmu addr :
  0x0400 <= addr < 0xC000 →
  mmu_read_byte rom mmu addr
  = bank_byte_read rom (map_slots mmu !!! Z.to_nat (addr / 0x4000))
      (addr mod 0x4000).
Proof.
  intros Haddr. unfold mmu_read_byte.
  assert (addr = 0x4000 * (addr / 0x4000) + addr mod 0x4000) as Hdm
    by (apply Z.div_mod; lia).
  pose proof (Z.mod_pos_bound addr 0x4000 ltac:(lia)) as Hmod.
  repeat case_decide; try lia.
  - replace (addr / 0x4000) with 0 by lia. simpl. f_equal. lia.
  - replace (addr / 0x4000) with 1 by lia. simpl. f_equal. lia.
  - replace (addr / 0x4000) with 2 by lia. simpl. f_equal. lia.
Qed.

Lemma read_ram_cell rom mmu addr :
  0xC000 <= addr <= 0xFFFF →
  mmu_read_byte rom mmu addr
  = system_ram mmu !! Z.to_nat ((addr - 0xC000) mod 0x2000).
Proof.
  intros Haddr. unfold mmu_read_byte.
  repeat case_decide; try lia; f_equal; f_equal.
  - rewrite Z.mod_small; lia.
  - replace (addr - 0xC000) with (addr - 0xE000 + 1 * 0x2000) by lia.
    rewrite Z_mod_plus_full, Z.mod_small; lia.
Qed.

Lemma write_ram_cell mmu addr value :
  0xC000 <= addr <= 0xFFFF →
  fst (mmu_write_byte mmu addr value) = true
  ∧ system_ram (snd (mmu_write_byte mmu addr value))
    = <[Z.to_nat ((addr - 0xC000) mod 0x2000) := value]> (system_ram mmu).
Proof.
  intros Haddr. unfold mmu_write_byte.
  assert (0xE000 <= addr → (addr - 0xC000) mod 0x2000 = addr - 0xE000) as Hhi.
  { intros H. replace (addr - 0xC000) with (addr - 0xE000 + 1 * 0x2000) by lia.
    rewrite Z_mod_plus_full, Z.mod_small; lia. }
  assert (addr < 0xE000 → (addr - 0xC000) mod 0x2000 = addr - 0xC000) as Hlo.
  { intros H. rewrite Z.mod_small; lia. }
  repeat case_decide; try lia; simpl; rewrite ?Hhi, ?Hlo by lia; auto.
Qed.

Lemma ram_cell_lt mmu addr :
  mmu_wf mmu →
  (Z.to_nat ((addr - 0xC000) mod 0x2000) < length (system_ram mmu))%nat.
Proof.
  intros (Hram & _). unfold MMU_SYSTEM_RAM_SIZE in Hram.
  pose proof (Z.mod_pos_bound (addr - 0xC000) 0x2000 ltac:(lia)). lia.
Qed.

(** ** Power-on *)

Lemma slots_three mmu :
  mmu_wf mmu → ∃ a b c, map_slots mmu = [a; b; c].
Proof.
  intros (_ & Hslots & _). unfold MMU_NUM_SLOTS in Hslots.
  destruct (map_slots mmu) as [|a [|b [|c [|d l]]]]; simpl in Hslots; try lia.
  eauto.
Qed.

Lemma mmu_power_slots mmu :
  mmu_wf mmu →
  map_slots (mmu_power mmu)
  = [rom_banks mmu !!! 0%nat; rom_banks mmu !!! 1%nat; rom_banks mmu !!! 2%nat].
Proof.
  intros Hwf. destruct (slots_three mmu Hwf) as (a & b & c & Hs).
  unfold mmu_power, MMU_NUM_SLOTS. rewrite for_range_3.
  unfold map_slot. simpl. rewrite Hs. reflexivity.
Qed.

Lemma mmu_power_ram mmu :
  mmu_wf mmu →
  system_ram (mmu_power mmu) = replicate (Z.to_nat MMU_SYSTEM_RAM_SIZE) 0xFF.
Proof.
  intros (Hram & _). unfold mmu_power, MMU_NUM_SLOTS.
  rewrite for_range_3. simpl. apply memset_full. exact Hram.
Qed.

(** X2: [mmu_power] fills the system RAM: right after it, every address
    from 0xC000 to 0xFFFF reads 0xFF. *)
Theorem power_fills_ram rom mmu addr :
  mmu_wf mmu →
  0xC000 <= addr <= 0xFFFF →
  mmu_read_byte rom (mmu_power mmu) addr = Some 0xFF.
Proof.
  intros Hwf Haddr. rewrite read_ram_cell by exact Haddr.
  rewrite mmu_power_ram by exact Hwf.
  apply lookup_replicate_2.
  pose proof (Z.mod_pos_bound (addr - 0xC000) 0x2000 ltac:(lia)).
  unfold MMU_SYSTEM_RAM_SIZE. lia.
Qed.

Lemma power_fills_ram_witness :
  mmu_read_byte demo_rom (mmu_power demo_final) 0xFFFF = Some 0xFF.
Proof.
  apply (power_fills_ram demo_rom demo_final 0xFFFF).
  - vm_compute. auto.
  - lia.
Defined.

Lemma loaded_bank_total mmu0 data size :
  mmu_wf mmu0 →
  size mod MMU_ROM_BANK_SIZE = 0 → MMU_ROM_BANK_SIZE <= size →
  ∃ mmu1, mmu_load_rom mmu0 data size = Some mmu1
    ∧ mmu_wf mmu1
    ∧ system_ram mmu1 = system_ram mmu0
    ∧ map_slots mmu1 = map_slots mmu0
    ∧ ∀ k, 0 <= k < MMU_NUM_ROM_BANKS →
        rom_banks mmu1 !!! Z.to_nat k
        = Some (loc_add data (k mod bank_count size * MMU_ROM_BANK_SIZE)).
Proof.
  intros Hwf Hmod Hsize. pose proof Hwf as (Hram & Hslots & Hbanks).
  destruct (mmu_load_rom_banks mmu0 data size Hmod Hsize Hbanks)
    as (mmu1 & Hload & Hram1 & Hslots1 & Hlen1 & Hlookup).
  exists mmu1. repeat split; try assumption.
  - rewrite Hram1. exact Hram.
  - rewrite Hslots1. exact Hslots.
  - rewrite Hlen1. exact Hbanks.
  - intros k Hk. apply list_lookup_total_correct, Hlookup, Hk.
Qed.

(** After power-on, slot [k] shows bank [k]: an address below 0xC000 is
    read through [rom_banks[addr / 0x4000]] at offset [addr mod 0x4000]. *)
Lemma read_after_power rom mmu addr :
  mmu_wf mmu → 0 <= addr < 0xC000 →
  mmu_read_byte rom (mmu_power mmu) addr
  = bank_byte_read rom (rom_banks mmu !!! Z.to_nat (addr / 0x4000))
      (addr mod 0x4000).
Proof.
  intros Hwf Haddr.
  assert (addr = 0x4000 * (addr / 0x4000) + addr mod 0x4000) as Hdm
    by (apply Z.div_mod; lia).
  pose proof (Z.mod_pos_bound addr 0x4000 ltac:(lia)) as Hmod.
  destruct (decide (addr < 0x0400)) as [Hlt|Hge].
  - rewrite read_fixed_header by exact Hlt. rewrite mmu_power_rom_banks.
    replace (addr / 0x4000) with 0 by lia. simpl. f_equal. lia.
  - rewrite read_slot_window by lia. rewrite mmu_power_slots by exact Hwf.
    assert (addr / 0x4000 = 0 ∨ addr / 0x4000 = 1 ∨ addr / 0x4000 = 2)
      as [-> | [-> | ->]] by lia; reflexivity.
Qed.

(** X3: power-on undoes any paging.  After a load of at least one bank,
    whatever was written or paged since, [mmu_power] makes the first 48 KiB
    of the address space show banks 0, 1 and 2: the byte read at [addr] is
    the image byte at ((addr / 16 KiB) mod banks) * 16 KiB + addr mod 16 KiB,
    which is the image byte at [addr] itself when the image has three banks
    or more. *)
Theorem power_maps_first_banks rom mmu0 data size ops addr :
  mmu_wf mmu0 →
  size mod MMU_ROM_BANK_SIZE = 0 →
  MMU_ROM_BANK_SIZE <= size →
  rom_image rom data size →
  Forall keeps_banks ops →
  0 <= addr < 0xC000 →
  ∃ mmu1 mmu b,
    mmu_load_rom mmu0 data size = Some mmu1
    ∧ run ops mmu1 = Some mmu
    ∧ load_u8 rom data
        (addr / 0x4000 mod bank_count size * 0x4000 + addr mod 0x4000) = Some b
    ∧ mmu_read_byte rom (mmu_power mmu) addr = Some b
    ∧ (3 * MMU_ROM_BANK_SIZE <= size → load_u8 rom data addr = Some b).
Proof.
  intros Hwf Hmod Hsize Himage Hops Haddr.
  destruct (loaded_bank_total mmu0 data size Hwf Hmod Hsize)
    as (mmu1 & Hload & Hwf1 & _ & _ & Hbank).
  destruct (run_wf ops mmu1 Hwf1) as (mmu & Hrun & Hwf2).
  assert (addr = 0x4000 * (addr / 0x4000) + addr mod 0x4000) as Hdm
    by (apply Z.div_mod; lia).
  pose proof (Z.mod_pos_bound addr 0x4000 ltac:(lia)) as Hoff.
  assert (0 <= addr / 0x4000 < 3) as Hk by lia.
  destruct (rom_image_load rom data size
              (addr / 0x4000 mod bank_count size * 0x4000 + addr mod 0x4000)
              Himage) as [b Hb].
  { apply (bank_in_image size (addr / 0x4000) (addr mod 0x4000));
      [exact Hsize|lia|exact Hoff]. }
  exists mmu1, mmu, b. repeat split; try assumption.
  - rewrite read_after_power by assumption.
    rewrite (run_keeps_banks _ _ _ Hops Hrun).
    rewrite Hbank by (unfold MMU_NUM_ROM_BANKS; lia). simpl.
    rewrite load_u8_loc_add. exact Hb.
  - intros Hthree. rewrite <- Hb. f_equal.
    assert (3 <= bank_count size).
    { unfold bank_count, MMU_NUM_ROM_BANKS.
      assert (3 <= size / MMU_ROM_BANK_SIZE)
        by (apply Z.div_le_lower_bound; unfold MMU_ROM_BANK_SIZE in *; lia).
      lia. }
    rewrite (Z.mod_small (addr / 0x4000)) by lia. lia.
Qed.

Lemma power_maps_first_banks_witness :
  ∃ mmu1 mmu b,
    mmu_load_rom demo_mmu demo_data demo_size = Some mmu1
    ∧ run paging_ops mmu1 = Some mmu
    ∧ load_u8 demo_rom demo_data
        (0x9ABC / 0x4000 mod bank_count demo_size * 0x4000 + 0x9ABC mod 0x4000)
      = Some b
    ∧ mmu_read_byte demo_rom (mmu_power mmu) 0x9ABC = Some b
    ∧ (3 * MMU_ROM_BANK_SIZE <= demo_size → load_u8 demo_rom demo_data 0x9ABC = Some b).
Proof.
  apply (power_maps_first_banks demo_rom demo_mmu demo_data demo_size paging_ops 0x9ABC).
  - exact demo_mmu_wf.
  - reflexivity.
  - vm_compute. discriminate.
  - exact demo_rom_image.
  - exact paging_ops_keep_banks.
  - lia.
Defined.

(** ** Without a ROM *)

Lemma init_slots_null mmu (n : nat) :
  ∀ k : nat, (k < n)%nat → (k < length (map_slots mmu))%nat →
    map_slots
      (for_range 0 (Z.of_nat n)
         (λ slot m, set_map_slots m (<[Z.to_nat slot := NULL]> (map_slots m)))
         mmu) !! k = Some NULL.
Proof.
  induction n as [|n IH]; intros k Hk Hlen; [lia|].
  rewrite for_range_snoc. simpl. rewrite Nat2Z.id.
  pose proof (init_slots_loop mmu n) as (_ & _ & Hl). simpl in Hl.
  destruct (decide (k = n)) as [->|Hne].
  - apply list_lookup_insert_eq. lia.
  - rewrite list_lookup_insert_ne by lia. apply IH; lia.
Qed.

Lemma all_null_intro (l : list (option loc)) :
  (∀ k : nat, (k < length l)%nat → l !! k = Some NULL) →
  Forall (λ r, r = NULL) l.
Proof.
  intros H. apply Forall_lookup. intros k r Hr.
  rewrite (H k (lookup_lt_Some _ _ _ Hr)) in Hr. congruence.
Qed.

Lemma all_null_total (l : list (option loc)) (k : nat) :
  Forall (λ r, r = NULL) l → l !!! k = NULL.
Proof.
  intros H. rewrite list_lookup_total_alt.
  destruct (l !! k) as [r|] eqn:Hr; simpl; [|reflexivity].
  exact (Forall_lookup_1 _ _ _ _ H Hr).
Qed.

Lemma mmu_init_no_rom mmu block :
  Z.of_nat (length block) = MMU_SYSTEM_RAM_SIZE →
  Z.of_nat (length (map_slots mmu)) = MMU_NUM_SLOTS →
  Z.of_nat (length (rom_banks mmu)) = MMU_NUM_ROM_BANKS →
  no_rom (mmu_init mmu block).
Proof.
  intros Hblock Hslots Hbanks.
  destruct (mmu_init_spec mmu block Hblock Hslots Hbanks)
    as ((_ & _ & Hlen) & _ & Hnull).
  split.
  - unfold mmu_init.
    pose proof (init_slots_null (set_system_ram mmu block)
                  (Z.to_nat MMU_NUM_SLOTS)) as Hs.
    rewrite Z2Nat.id in Hs by (unfold MMU_NUM_SLOTS; lia).
    set (m1 := for_range 0 MMU_NUM_SLOTS _ _) in *.
    pose proof (init_slots_loop (set_system_ram mmu block)
                  (Z.to_nat MMU_NUM_SLOTS)) as (_ & _ & Hl1).
    rewrite Z2Nat.id in Hl1 by (unfold MMU_NUM_SLOTS; lia). fold m1 in Hl1.
    clearbody m1.
    pose proof (init_banks_loop m1 (Z.to_nat MMU_NUM_ROM_BANKS)) as (_ & Hb2 & _).
    rewrite Z2Nat.id in Hb2 by (unfold MMU_NUM_ROM_BANKS; lia).
    rewrite Hb2. apply all_null_intro. intros k Hk.
    simpl in Hl1. unfold MMU_NUM_SLOTS in *. apply Hs; simpl; lia.
  - apply all_null_intro. intros k Hk.
    rewrite <- (Nat2Z.id k). apply Hnull. lia.
Qed.

Lemma map_slot_no_rom mmu slot bank : no_rom mmu → no_rom (map_slot mmu slot bank).
Proof.
  intros [Hs Hb]. split; simpl; [|exact Hb].
  apply Forall_insert; [exact Hs|]. apply all_null_total, Hb.
Qed.

Lemma mmu_write_byte_no_rom mmu addr value :
  no_rom mmu → no_rom (snd (mmu_write_byte mmu addr value)).
Proof.
  intros Hn. unfold mmu_write_byte.
  repeat case_decide; simpl; try exact Hn;
    match goal with
    | |- no_rom (set_system_ram (map_slot ?m ?s ?b) _) =>
        exact (map_slot_no_rom m s b Hn)
    end.
Qed.

Lemma exec_op_no_rom op mmu mmu' :
  keeps_banks op → no_rom mmu → exec_op op mmu = Some mmu' → no_rom mmu'.
Proof.
  destruct op as [data size| |addr value|addr value]; simpl;
    intros Hk Hn Hexec; [contradiction| | |]; inversion Hexec; subst; clear Hexec.
  - unfold mmu_power, MMU_NUM_SLOTS. rewrite for_range_3.
    apply (map_slot_no_rom _ 2 2), (map_slot_no_rom _ 1 1), (map_slot_no_rom _ 0 0), Hn.
  - apply mmu_write_byte_no_rom, Hn.
  - unfold mmu_write_double.
    pose proof (mmu_write_byte_no_rom mmu addr (Z.land value 0xFF) Hn) as H1.
    destruct (mmu_write_byte mmu addr (Z.land value 0xFF)) as [b1 m1]; simpl in H1.
    pose proof (mmu_write_byte_no_rom m1 (u16 (addr + 1))
                  (u8 (Z.shiftr value 8)) H1) as H2.
    destruct (mmu_write_byte m1 (u16 (addr + 1)) (u8 (Z.shiftr value 8)))
      as [b2 m2]. exact H2.
Qed.

Lemma run_no_rom ops mmu mmu' :
  Forall keeps_banks ops → no_rom mmu → run ops mmu = Some mmu' → no_rom mmu'.
Proof.
  intros Hops. revert mmu. induction Hops as [|op ops Hop Hops IH];
    intros mmu Hn Hrun; simpl in Hrun.
  - inversion Hrun. subst. exact Hn.
  - destruct (exec_op op mmu) as [mmu1|] eqn:Hexec; simpl in Hrun; [|discriminate].
    apply (IH mmu1); [|exact Hrun]. eapply exec_op_no_rom; eassumption.
Qed.

(** X1: as long as no ROM has been loaded, whatever is written or paged
    and however often the MMU is powered on, every address below 0xC000
    reads 0xFF and refuses writes. *)
Theorem no_rom_reads_0xFF rom raw block ops addr value :
  Z.of_nat (length block) = MMU_SYSTEM_RAM_SIZE →
  Z.of_nat (length (map_slots raw)) = MMU_NUM_SLOTS →
  Z.of_nat (length (rom_banks raw)) = MMU_NUM_ROM_BANKS →
  Forall keeps_banks ops →
  0 <= addr < 0xC000 →
  ∃ mmu, run ops (mmu_init raw block) = Some mmu
    ∧ mmu_read_byte rom mmu addr = Some 0xFF
    ∧ mmu_write_byte mmu addr value = (false, mmu).
Proof.
  intros Hblock Hslots Hbanks Hops Haddr.
  destruct (mmu_init_spec raw block Hblock Hslots Hbanks) as (Hwf & _ & _).
  destruct (run_wf ops _ Hwf) as (mmu & Hrun & _).
  pose proof (run_no_rom _ _ _ Hops (mmu_init_no_rom raw block Hblock Hslots Hbanks) Hrun)
    as [Hs Hb].
  exists mmu. split; [exact Hrun|]. split.
  - destruct (decide (addr < 0x0400)) as [Hlt|Hge].
    + rewrite read_fixed_header by exact Hlt.
      rewrite (all_null_total _ _ Hb). reflexivity.
    + rewrite read_slot_window by lia.
      rewrite (all_null_total _ _ Hs). reflexivity.
  - unfold mmu_write_byte. case_decide; [reflexivity|lia].
Qed.

Lemma no_rom_reads_0xFF_witness :
  ∃ mmu, run paging_ops (mmu_init raw_mmu fresh_ram) = Some mmu
    ∧ mmu_read_byte demo_rom mmu 0x8123 = Some 0xFF
    ∧ mmu_write_byte mmu 0x8123 0x55 = (false, mmu).
Proof.
  apply (no_rom_reads_0xFF demo_rom raw_mmu fresh_ram paging_ops 0x8123 0x55).
  - reflexivity.
  - reflexivity.
  - reflexivity.
  - exact paging_ops_keep_banks.
  - lia.
Defined.

(** ** RAM writes *)

(** Two RAM addresses name the same cell exactly when they differ by a
    multiple of 0x2000. *)
Lemma ram_cell_eq addr addr' :
  0xC000 <= addr <= 0xFFFF → 0xC000 <= addr' <= 0xFFFF →
  ((addr' - addr) mod 0x2000 = 0
   ↔ (addr' - 0xC000) mod 0x2000 = (addr - 0xC000) mod 0x2000).
Proof.
  intros H1 H2.
  pose proof (Z.div_mod (addr' - addr) 0x2000 ltac:(lia)).
  pose proof (Z.div_mod (addr' - 0xC000) 0x2000 ltac:(lia)).
  pose proof (Z.div_mod (addr - 0xC000) 0x2000 ltac:(lia)).
  pose proof (Z.mod_pos_bound (addr' - addr) 0x2000 ltac:(lia)).
  pose proof (Z.mod_pos_bound (addr' - 0xC000) 0x2000 ltac:(lia)).
  pose proof (Z.mod_pos_bound (addr - 0xC000) 0x2000 ltac:(lia)).
  set (q1 := (addr' - addr) / 0x2000) in *.
  set (q2 := (addr' - 0xC000) / 0x2000) in *.
  set (q3 := (addr - 0xC000) / 0x2000) in *.
  set (r1 := (addr' - addr) mod 0x2000) in *.
  set (r2 := (addr' - 0xC000) mod 0x2000) in *.
  set (r3 := (addr - 0xC000) mod 0x2000) in *.
  clearbody q1 q2 q3 r1 r2 r3.
  assert (q2 = 0 ∨ q2 = 1) by lia.
  assert (q3 = 0 ∨ q3 = 1) by lia.
  assert (q1 = -2 ∨ q1 = -1 ∨ q1 = 0 ∨ q1 = 1) by lia.
  lia.
Qed.

(** X4: a write to any address from 0xC000 up succeeds; afterwards every
    RAM address that names the written cell (the address itself and its
    mirror) reads the written value, and every other RAM address reads what
    it read before. *)
Theorem ram_write_then_read rom mmu addr addr' value :
  mmu_wf mmu →
  0xC000 <= addr <= 0xFFFF →
  0xC000 <= addr' <= 0xFFFF →
  fst (mmu_write_byte mmu addr value) = true
  ∧ mmu_read_byte rom (snd (mmu_write_byte mmu addr value)) addr'
    = if decide ((addr' - addr) mod 0x2000 = 0) then Some value
      else mmu_read_byte rom mmu addr'.
Proof.
  intros Hwf Haddr Haddr'.
  destruct (write_ram_cell mmu addr value Haddr) as [Hok Hram].
  split; [exact Hok|].
  rewrite !read_ram_cell by exact Haddr'. rewrite Hram.
  pose proof (ram_cell_lt mmu addr Hwf) as Hlt.
  pose proof (ram_cell_eq addr addr' Haddr Haddr') as Hcell.
  case_decide as Hsame.
  - rewrite (proj1 Hcell Hsame). apply list_lookup_insert_eq. exact Hlt.
  - apply list_lookup_insert_ne. intros Heq. apply Hsame, Hcell.
    apply Z2Nat.inj in Heq; [congruence| |];
      apply Z.mod_pos_bound; lia.
Qed.

Lemma ram_write_then_read_witness :
  fst (mmu_write_byte demo_loaded 0xC010 0x5A) = true
  ∧ mmu_read_byte demo_rom (snd (mmu_write_byte demo_loaded 0xC010 0x5A)) 0xE010
    = if decide ((0xE010 - 0xC010) mod 0x2000 = 0) then Some 0x5A
      else mmu_read_byte demo_rom demo_loaded 0xE010.
Proof.
  apply (ram_write_then_read demo_rom demo_loaded 0xC010 0xE010 0x5A).
  - exact demo_loaded_wf.
  - lia.
  - lia.
Defined.

(** Reads below 0xC000 depend on the two reference tables only. *)
Lemma read_rom_region_ext rom m1 m2 addr :
  map_slots m1 = map_slots m2 → rom_banks m1 = rom_banks m2 →
  addr < 0xC000 →
  mmu_read_byte rom m1 addr = mmu_read_byte rom m2 addr.
Proof.
  intros Hs Hb Haddr. unfold mmu_read_byte. rewrite Hs, Hb.
  repeat case_decide; try reflexivity; lia.
Qed.

(** X5: a write to an address other than 0xFFFD, 0xFFFE and 0xFFFF (the
    reserved 0xFFFC included) changes neither the slot table nor the bank
    table, so every address below 0xC000 reads what it read before. *)
Theorem plain_write_keeps_mapping rom mmu addr value a :
  addr ≠ 0xFFFD → addr ≠ 0xFFFE → addr ≠ 0xFFFF →
  a < 0xC000 →
  map_slots (snd (mmu_write_byte mmu addr value)) = map_slots mmu
  ∧ rom_banks (snd (mmu_write_byte mmu addr value)) = rom_banks mmu
  ∧ mmu_read_byte rom (snd (mmu_write_byte mmu addr value)) a
    = mmu_read_byte rom mmu a.
Proof.
  intros H1 H2 H3 Ha.
  assert (map_slots (snd (mmu_write_byte mmu addr value)) = map_slots mmu) as Hs.
  { unfold mmu_write_byte. repeat case_decide; try reflexivity; contradiction. }
  pose proof (mmu_write_byte_rom_banks mmu addr value) as Hb.
  repeat split; try assumption.
  apply read_rom_region_ext; assumption.
Qed.

Lemma plain_write_keeps_mapping_witness :
  map_slots (snd (mmu_write_byte demo_loaded 0xFFFC 0x0B)) = map_slots demo_loaded
  ∧ rom_banks (snd (mmu_write_byte demo_loaded 0xFFFC 0x0B)) = rom_banks demo_loaded
  ∧ mmu_read_byte demo_rom (snd (mmu_write_byte demo_loaded 0xFFFC 0x0B)) 0x8000
    = mmu_read_byte demo_rom demo_loaded 0x8000.
Proof.
  apply (plain_write_keeps_mapping demo_rom demo_loaded 0xFFFC 0x0B 0x8000); lia.
Defined.

(** ** Paging writes, all three registers *)

Lemma paging_write_slots mmu k value :
  0 <= k < 3 →
  mmu_write_byte mmu (0xFFFD + k) value
  = (true,
     set_system_ram (map_slot mmu k (Z.land value 0x3F))
       (<[Z.to_nat (0xFFFD + k - 0xE000) := value]> (system_ram mmu))).
Proof.
  intros Hk. assert (k = 0 ∨ k = 1 ∨ k = 2) as [-> | [-> | ->]] by lia;
    reflexivity.
Qed.

(** X6: a write of [v] to register 0xFFFD + k (k = 0, 1, 2) succeeds and
    puts the reference of bank [v & 0x3F] into slot [k], leaving the other
    two slots alone.  From then on the addresses of that slot's window
    (for slot 0 only those from 0x0400 up) read that bank at offset
    [addr mod 0x4000]; every other address below 0xC000 reads as before. *)
Theorem paging_write_remaps_slot rom mmu k value addr :
  mmu_wf mmu →
  0 <= k < 3 →
  0 <= addr < 0xC000 →
  fst (mmu_write_byte mmu (0xFFFD + k) value) = true
  ∧ map_slots (snd (mmu_write_byte mmu (0xFFFD + k) value))
    = <[Z.to_nat k := rom_banks mmu !!! Z.to_nat (Z.land value 0x3F)]>
        (map_slots mmu)
  ∧ mmu_read_byte rom (snd (mmu_write_byte mmu (0xFFFD + k) value)) addr
    = if decide (0x0400 <= addr ∧ addr / 0x4000 = k)
      then bank_byte_read rom (rom_banks mmu !!! Z.to_nat (Z.land value 0x3F))
             (addr mod 0x4000)
      else mmu_read_byte rom mmu addr.
Proof.
  intros Hwf Hk Haddr. rewrite paging_write_slots by exact Hk. simpl.
  split; [reflexivity|]. split; [reflexivity|].
  destruct Hwf as (_ & Hslots & _). unfold MMU_NUM_SLOTS in Hslots.
  destruct (decide (addr < 0x0400)) as [Hlt|Hge].
  - rewrite !read_fixed_header by exact Hlt. simpl.
    case_decide; [lia|reflexivity].
  - rewrite !read_slot_window by lia. simpl.
    assert (0 <= addr / 0x4000 < 3) as Hq.
    { split; [apply Z.div_pos; lia|apply Z.div_lt_upper_bound; lia]. }
    case_decide as Hc.
    + destruct Hc as [_ <-].
      rewrite list_lookup_total_insert_eq by lia. reflexivity.
    + rewrite list_lookup_total_insert_ne by lia. reflexivity.
Qed.

Lemma paging_write_remaps_slot_witness :
  fst (mmu_write_byte demo_loaded (0xFFFD + 2) 0x41) = true
  ∧ map_slots (snd (mmu_write_byte demo_loaded (0xFFFD + 2) 0x41))
    = <[Z.to_nat 2 := rom_banks demo_loaded !!! Z.to_nat (Z.land 0x41 0x3F)]>
        (map_slots demo_loaded)
  ∧ mmu_read_byte demo_rom (snd (mmu_write_byte demo_loaded (0xFFFD + 2) 0x41)) 0x9000
    = if decide (0x0400 <= 0x9000 ∧ 0x9000 / 0x4000 = 2)
      then bank_byte_read demo_rom
             (rom_banks demo_loaded !!! Z.to_nat (Z.land 0x41 0x3F))
             (0x9000 mod 0x4000)
      else mmu_read_byte demo_rom demo_loaded 0x9000.
Proof.
  apply (paging_write_remaps_slot demo_rom demo_loaded 2 0x41 0x9000).
  - exact demo_loaded_wf.
  - lia.
  - lia.
Defined.

(** X7: [mmu_write_byte] is idempotent: making the same write twice leaves
    the MMU the first write left. *)
Theorem write_byte_idempotent mmu addr value :
  snd (mmu_write_byte (snd (mmu_write_byte mmu addr value)) addr value)
  = snd (mmu_write_byte mmu addr value).
Proof.
  unfold mmu_write_byte.
  repeat case_decide; try lia; simpl; try reflexivity;
    unfold set_system_ram, map_slot, set_map_slots; simpl;
    rewrite ?list_insert_insert_eq; reflexivity.
Qed.

(** ** Word writes *)

Lemma mmu_write_double_unfold mmu addr value :
  mmu_write_double mmu addr value
  = (fst (mmu_write_byte mmu addr (Z.land value 0xFF))
     && fst (mmu_write_byte (snd (mmu_write_byte mmu addr (Z.land value 0xFF)))
               (u16 (addr + 1)) (u8 (Z.shiftr value 8))),
     snd (mmu_write_byte (snd (mmu_write_byte mmu addr (Z.land value 0xFF)))
            (u16 (addr + 1)) (u8 (Z.shiftr value 8)))).
Proof.
  unfold mmu_write_double.
  destruct (mmu_write_byte mmu addr (Z.land value 0xFF)) as [b1 m1]. simpl.
  destruct (mmu_write_byte m1 (u16 (addr + 1)) (u8 (Z.shiftr value 8))) as [b2 m2].
  reflexivity.
Qed.

Lemma mmu_write_byte_fst mmu addr value :
  fst (mmu_write_byte mmu addr value) = bool_decide (0xC000 <= addr).
Proof.
  destruct (decide (0xC000 <= addr)) as [Hge|Hlt].
  - rewrite bool_decide_eq_true_2 by exact Hge. unfold mmu_write_byte.
    repeat case_decide; try reflexivity; lia.
  - rewrite bool_decide_eq_false_2 by exact Hlt. unfold mmu_write_byte.
    case_decide; [reflexivity|lia].
Qed.

Lemma u16_succ addr :
  is_u16 addr → u16 (addr + 1) = if decide (addr = 0xFFFF) then 0 else addr + 1.
Proof.
  unfold is_u16, u16. intros Haddr. case_decide as Htop.
  - subst addr. reflexivity.
  - apply Z.mod_small. lia.
Qed.

(** X8: for a 16-bit address, [mmu_write_double] returns true exactly when
    both bytes land in RAM, that is for addresses 0xC000 to 0xFFFE. *)
Theorem write_double_true_iff mmu addr value :
  is_u16 addr →
  (fst (mmu_write_double mmu addr value) = true ↔ 0xC000 <= addr <= 0xFFFE).
Proof.
  intros Haddr. rewrite mmu_write_double_unfold. simpl.
  rewrite !mmu_write_byte_fst, (u16_succ addr Haddr).
  rewrite andb_true_iff, !bool_decide_eq_true.
  unfold is_u16 in Haddr. case_decide; lia.
Qed.

Lemma write_double_true_iff_witness :
  fst (mmu_write_double demo_loaded 0xDFFF 0xBEEF) = true
  ↔ 0xC000 <= 0xDFFF <= 0xFFFE.
Proof.
  apply (write_double_true_iff demo_loaded 0xDFFF 0xBEEF). unfold is_u16. lia.
Defined.

Lemma byte_split v :
  is_u16 v →
  is_u8 (Z.shiftr v 8)
  ∧ u8 (Z.shiftr v 8) = Z.shiftr v 8
  ∧ Z.land v 0xFF + Z.shiftl (Z.shiftr v 8) 8 = v.
Proof.
  unfold is_u16, is_u8, u8. intros Hv.
  rewrite Z.shiftr_div_pow2, Z.shiftl_mul_pow2 by lia.
  change 0xFF with (Z.ones 8). rewrite Z.land_ones by lia.
  pose proof (Z.div_mod v (2 ^ 8) ltac:(lia)) as Hdm.
  pose proof (Z.mod_pos_bound v (2 ^ 8) ltac:(lia)) as Hm.
  assert (0 <= v / 2 ^ 8 < 2 ^ 8) as Hq.
  { split; [apply Z.div_pos; lia|apply Z.div_lt_upper_bound; lia]. }
  repeat split; try lia. apply Z.mod_small. lia.
Qed.

(** X9: a word written at 0xBFFF straddles the end of the ROM region: the
    call returns false and the low byte is dropped, but the high byte is
    stored at 0xC000 all the same. *)
Theorem write_double_straddles_rom rom mmu v :
  mmu_wf mmu →
  is_u16 v →
  fst (mmu_write_double mmu 0xBFFF v) = false
  ∧ snd (mmu_write_double mmu 0xBFFF v)
    = snd (mmu_write_byte mmu 0xC000 (Z.shiftr v 8))
  ∧ mmu_read_byte rom (snd (mmu_write_double mmu 0xBFFF v)) 0xC000
    = Some (Z.shiftr v 8).
Proof.
  intros (Hram & _) Hv. destruct (byte_split v Hv) as (_ & Hu8 & _).
  rewrite mmu_write_double_unfold. simpl. rewrite Hu8.
  change (u16 (0xBFFF + 1)) with 0xC000.
  repeat split. unfold mmu_write_byte, mmu_read_byte. simpl.
  apply list_lookup_insert_eq. unfold MMU_SYSTEM_RAM_SIZE in Hram. lia.
Qed.

Lemma write_double_straddles_rom_witness :
  fst (mmu_write_double demo_loaded 0xBFFF 0xBEEF) = false
  ∧ snd (mmu_write_double demo_loaded 0xBFFF 0xBEEF)
    = snd (mmu_write_byte demo_loaded 0xC000 (Z.shiftr 0xBEEF 8))
  ∧ mmu_read_byte demo_rom (snd (mmu_write_double demo_loaded 0xBFFF 0xBEEF)) 0xC000
    = Some (Z.shiftr 0xBEEF 8).
Proof.
  apply (write_double_straddles_rom demo_rom demo_loaded 0xBEEF).
  - exact demo_loaded_wf.
  - unfold is_u16. lia.
Defined.

(** X10: a word written anywhere from 0xC000 to 0xFFFE is read back by
    [mmu_read_double] at the same address, whatever paging the write may
    have triggered on the way. *)
Theorem write_double_read_double rom mmu addr v :
  mmu_wf mmu →
  0xC000 <= addr <= 0xFFFE →
  is_u16 v →
  fst (mmu_write_double mmu addr v) = true
  ∧ mmu_read_double rom (snd (mmu_write_double mmu addr v)) addr = Some v.
Proof.
  intros Hwf Haddr Hv.
  assert (is_u16 addr) as Hu16 by (unfold is_u16; lia).
  split.
  { rewrite mmu_write_double_unfold. simpl.
    rewrite !mmu_write_byte_fst, (u16_succ addr Hu16).
    rewrite andb_true_iff, !bool_decide_eq_true. case_decide; lia. }
  destruct (byte_split v Hv) as (Hhi & Hu8 & Hsum).
  rewrite mmu_write_double_unfold. simpl. unfold mmu_read_double.
  rewrite (u16_succ addr Hu16), Hu8. case_decide; [lia|].
  set (m1 := snd (mmu_write_byte mmu addr (Z.land v 0xFF))).
  destruct (write_ram_cell mmu addr (Z.land v 0xFF)) as [_ Hram1]; [lia|].
  fold m1 in Hram1.
  destruct (write_ram_cell m1 (addr + 1) (Z.shiftr v 8)) as [_ Hram2]; [lia|].
  rewrite !read_ram_cell by lia. rewrite Hram2, Hram1.
  pose proof (ram_cell_lt mmu addr Hwf) as Hlt0.
  pose proof (ram_cell_lt mmu (addr + 1) Hwf) as Hlt1.
  assert ((addr + 1 - 0xC000) mod 0x2000 ≠ (addr - 0xC000) mod 0x2000) as Hne.
  { intros Heq. apply (ram_cell_eq addr (addr + 1)) in Heq; [|lia|lia].
    replace (addr + 1 - addr) with 1 in Heq by lia. discriminate Heq. }
  assert (Z.to_nat ((addr + 1 - 0xC000) mod 0x2000)
          ≠ Z.to_nat ((addr - 0xC000) mod 0x2000)) as Hnat.
  { intros Heq. apply Z2Nat.inj in Heq;
      [congruence|apply Z.mod_pos_bound; lia|apply Z.mod_pos_bound; lia]. }
  set (c0 := Z.to_nat ((addr - 0xC000) mod 0x2000)) in *.
  set (c1 := Z.to_nat ((addr + 1 - 0xC000) mod 0x2000)) in *.
  assert ((<[c1 := Z.shiftr v 8]> (<[c0 := Z.land v 0xFF]> (system_ram mmu))) !! c0
          = Some (Z.land v 0xFF)) as Hlo.
  { rewrite (list_lookup_insert_ne _ _ _ _ Hnat).
    apply list_lookup_insert_eq. exact Hlt0. }
  assert ((<[c1 := Z.shiftr v 8]> (<[c0 := Z.land v 0xFF]> (system_ram mmu))) !! c1
          = Some (Z.shiftr v 8)) as Hhi'.
  { apply list_lookup_insert_eq. rewrite length_insert. exact Hlt1. }
  rewrite Hlo, Hhi'. simpl.
  rewrite Hsum. f_equal. apply Z.mod_small. exact Hv.
Qed.

Lemma write_double_read_double_witness :
  fst (mmu_write_double demo_loaded 0xFFFD 0x0302) = true
  ∧ mmu_read_double demo_rom (snd (mmu_write_double demo_loaded 0xFFFD 0x0302)) 0xFFFD
    = Some 0x0302.
Proof.
  apply (write_double_read_double demo_rom demo_loaded 0xFFFD 0x0302).
  - exact demo_loaded_wf.
  - lia.
  - unfold is_u16. lia.
Defined.

(** ** More on [mmu_load_rom] *)

Lemma mmu_load_rom_below_one_bank mmu data size :
  size < MMU_ROM_BANK_SIZE → mmu_load_rom mmu data size = Some mmu.
Proof.
  intros Hsize. unfold mmu_load_rom. case_decide; [reflexivity|].
  rewrite bank_count_clamp. apply for_range_opt_empty.
  unfold bank_count.
  assert (size / MMU_ROM_BANK_SIZE < 1)
    by (apply Z.div_lt_upper_bound; unfold MMU_ROM_BANK_SIZE in *; lia).
  lia.
Qed.

(** X11: a load replaces the whole bank table: the table after a load of
    at least one bank depends on the image address and size only, not on
    what was loaded before. *)
Theorem load_rom_replaces_table mmu mmu' data size :
  mmu_wf mmu →
  mmu_wf mmu' →
  size mod MMU_ROM_BANK_SIZE = 0 →
  MMU_ROM_BANK_SIZE <= size →
  ∃ m m', mmu_load_rom mmu data size = Some m
    ∧ mmu_load_rom mmu' data size = Some m'
    ∧ rom_banks m = rom_banks m'.
Proof.
  intros (_ & _ & Hlen) (_ & _ & Hlen') Hmod Hsize.
  destruct (mmu_load_rom_banks mmu data size Hmod Hsize Hlen)
    as (m & Hload & _ & _ & Hl & Hlookup).
  destruct (mmu_load_rom_banks mmu' data size Hmod Hsize Hlen')
    as (m' & Hload' & _ & _ & Hl' & Hlookup').
  exists m, m'. repeat split; try assumption.
  apply list_eq. intros i.
  destruct (decide (Z.of_nat i < MMU_NUM_ROM_BANKS)) as [Hi|Hi].
  - specialize (Hlookup (Z.of_nat i) ltac:(lia)).
    specialize (Hlookup' (Z.of_nat i) ltac:(lia)).
    rewrite Nat2Z.id in Hlookup, Hlookup'. congruence.
  - rewrite !lookup_ge_None_2 by lia. reflexivity.
Qed.

Lemma load_rom_replaces_table_witness :
  ∃ m m', mmu_load_rom demo_mmu demo_data demo_size = Some m
    ∧ mmu_load_rom demo_final demo_data demo_size = Some m'
    ∧ rom_banks m = rom_banks m'.
Proof.
  apply (load_rom_replaces_table demo_mmu demo_final demo_data demo_size).
  - exact demo_mmu_wf.
  - vm_compute. auto.
  - reflexivity.
  - vm_compute. discriminate.
Defined.

(** X12: [mmu_load_rom] never touches the slot table or the RAM: whatever
    the size, every address from 0x0400 up reads after the load what it
    read before, through the references the slots already held.  Only the
    fixed first kilobyte follows the new bank table at once. *)
Theorem load_rom_keeps_slots rom mmu data size addr :
  0x0400 <= addr →
  ∃ mmu', mmu_load_rom mmu data size = Some mmu'
    ∧ map_slots mmu' = map_slots mmu
    ∧ system_ram mmu' = system_ram mmu
    ∧ mmu_read_byte rom mmu' addr = mmu_read_byte rom mmu addr.
Proof.
  intros Haddr.
  destruct (mmu_load_rom_total mmu data size) as (mmu' & Hload & Hram & Hslots & _).
  exists mmu'. repeat split; try assumption.
  unfold mmu_read_byte. rewrite Hram, Hslots.
  case_decide; [lia|reflexivity].
Qed.

Lemma load_rom_keeps_slots_witness :
  ∃ mmu', mmu_load_rom demo_final (Loc 0 0x4000) MMU_ROM_BANK_SIZE = Some mmu'
    ∧ map_slots mmu' = map_slots demo_final
    ∧ system_ram mmu' = system_ram demo_final
    ∧ mmu_read_byte demo_rom mmu' 0x4000 = mmu_read_byte demo_rom demo_final 0x4000.
Proof.
  apply (load_rom_keeps_slots demo_rom demo_final (Loc 0 0x4000) MMU_ROM_BANK_SIZE 0x4000).
  lia.
Defined.

(** X13: an image shorter than one bank, the empty image included, loads
    nothing: the MMU is returned as it was, whether or not the size is a
    multiple of 16 KiB. *)
Theorem load_rom_short_image_noop mmu data size :
  0 <= size < MMU_ROM_BANK_SIZE → mmu_load_rom mmu data size = Some mmu.
Proof. intros [_ Hsize]. apply mmu_load_rom_below_one_bank, Hsize. Qed.

Lemma load_rom_short_image_noop_witness :
  mmu_load_rom demo_loaded demo_data 0 = Some demo_loaded.
Proof.
  apply (load_rom_short_image_noop demo_loaded demo_data 0).
  vm_compute. split; [discriminate|reflexivity].
Defined.

(** ** No read leaves its image *)

Lemma ref_ok_total rom (l : list (option loc)) (k : nat) :
  Forall (ref_ok rom) l → ref_ok rom (l !!! k).
Proof.
  intros H. rewrite list_lookup_total_alt.
  destruct (l !! k) as [r|] eqn:Hr; simpl; [|exact I].
  exact (Forall_lookup_1 _ _ _ _ H Hr).
Qed.

Lemma ref_ok_loaded rom data size k :
  rom_image rom data size → MMU_ROM_BANK_SIZE <= size → 0 <= k →
  ref_ok rom (Some (loc_add data (k mod bank_count size * MMU_ROM_BANK_SIZE))).
Proof.
  intros (blk & Hblk & Hofs & Hlen) Hsize Hk. exists blk. simpl.
  pose proof (bank_in_image size k 0 Hsize Hk ltac:(unfold MMU_ROM_BANK_SIZE; lia)).
  pose proof (bank_in_image size k (MMU_ROM_BANK_SIZE - 1) Hsize Hk
                ltac:(unfold MMU_ROM_BANK_SIZE; lia)).
  repeat split; [exact Hblk|lia|lia].
Qed.

Lemma map_slot_safe rom mmu slot bank :
  mmu_safe rom mmu → mmu_safe rom (map_slot mmu slot bank).
Proof.
  intros ((Hram & Hslots & Hbanks) & Hs & Hb). repeat split; simpl; try assumption.
  - rewrite length_insert. exact Hslots.
  - apply Forall_insert; [exact Hs|]. apply ref_ok_total, Hb.
Qed.

Lemma set_system_ram_safe rom mmu ram :
  length ram = length (system_ram mmu) →
  mmu_safe rom mmu → mmu_safe rom (set_system_ram mmu ram).
Proof.
  intros Hlen ((Hram & Hslots & Hbanks) & Hs & Hb).
  repeat split; simpl; try assumption. rewrite Hlen. exact Hram.
Qed.

Lemma mmu_write_byte_safe rom mmu addr value :
  mmu_safe rom mmu → mmu_safe rom (snd (mmu_write_byte mmu addr value)).
Proof.
  intros Hsafe. unfold mmu_write_byte.
  repeat case_decide; simpl; try exact Hsafe;
    apply set_system_ram_safe; try apply length_insert;
    try apply map_slot_safe; exact Hsafe.
Qed.

Lemma mmu_load_rom_safe rom mmu data size :
  rom_image rom data size → mmu_safe rom mmu →
  ∃ mmu', mmu_load_rom mmu data size = Some mmu' ∧ mmu_safe rom mmu'.
Proof.
  intros Himage (Hwf & Hs & Hb).
  destruct (decide (size mod MMU_ROM_BANK_SIZE = 0)) as [Hmod|Hmod].
  - destruct (decide (MMU_ROM_BANK_SIZE <= size)) as [Hsize|Hsize].
    + pose proof Hwf as (_ & _ & Hlen).
      destruct (mmu_load_rom_banks mmu data size Hmod Hsize Hlen)
        as (mmu' & Hload & Hram' & Hslots' & Hlen' & Hlookup).
      exists mmu'. split; [exact Hload|].
      destruct Hwf as (Hram & Hslots & _).
      repeat split; rewrite ?Hram', ?Hslots', ?Hlen'; try assumption.
      apply Forall_lookup. intros i r Hr.
      pose proof (lookup_lt_Some _ _ _ Hr) as Hi.
      rewrite <- (Nat2Z.id i), Hlookup in Hr by lia.
      inversion Hr. subst r. apply ref_ok_loaded; [assumption|assumption|lia].
    + exists mmu. split; [|split; [exact Hwf|split; assumption]].
      apply mmu_load_rom_below_one_bank. lia.
  - exists mmu. split; [|split; [exact Hwf|split; assumption]].
    unfold mmu_load_rom. case_decide; [reflexivity|contradiction].
Qed.

Lemma exec_op_safe rom op mmu :
  op_safe rom op → mmu_safe rom mmu →
  ∃ mmu', exec_op op mmu = Some mmu' ∧ mmu_safe rom mmu'.
Proof.
  destruct op as [data size| |addr value|addr value]; simpl; intros Hop Hsafe.
  - apply mmu_load_rom_safe; assumption.
  - eexists. split; [reflexivity|].
    unfold mmu_power, MMU_NUM_SLOTS. rewrite for_range_3.
    apply set_system_ram_safe; [apply length_memset|].
    apply (map_slot_safe _ _ 2 2), (map_slot_safe _ _ 1 1), (map_slot_safe _ _ 0 0).
    exact Hsafe.
  - eexists. split; [reflexivity|]. apply mmu_write_byte_safe, Hsafe.
  - eexists. split; [reflexivity|]. rewrite mmu_write_double_unfold. simpl.
    apply mmu_write_byte_safe, mmu_write_byte_safe, Hsafe.
Qed.

Lemma run_safe rom ops mmu :
  Forall (op_safe rom) ops → mmu_safe rom mmu →
  ∃ mmu', run ops mmu = Some mmu' ∧ mmu_safe rom mmu'.
Proof.
  intros Hops. revert mmu. induction Hops as [|op ops Hop Hops IH];
    intros mmu Hsafe; simpl.
  - exists mmu. auto.
  - destruct (exec_op_safe rom op mmu Hop Hsafe) as (mmu1 & Hexec & Hsafe1).
    rewrite Hexec. simpl. apply IH, Hsafe1.
Qed.

Lemma bank_byte_read_safe rom r off :
  ref_ok rom r → 0 <= off < MMU_ROM_BANK_SIZE →
  is_Some (bank_byte_read rom r off).
Proof.
  intros Hr Hoff. destruct r as [p|]; simpl; [|eauto].
  eapply rom_image_load; eassumption.
Qed.

Lemma mmu_read_byte_safe rom mmu addr :
  mmu_safe rom mmu → is_u16 addr → is_Some (mmu_read_byte rom mmu addr).
Proof.
  intros (Hwf & Hs & Hb) Haddr. unfold is_u16 in Haddr.
  destruct (decide (addr < 0xC000)) as [Hrom|Hram].
  - destruct (decide (addr < 0x0400)) as [Hlt|Hge].
    + rewrite read_fixed_header by exact Hlt.
      apply bank_byte_read_safe; [apply ref_ok_total, Hb|].
      unfold MMU_ROM_BANK_SIZE. lia.
    + rewrite read_slot_window by lia.
      apply bank_byte_read_safe; [apply ref_ok_total, Hs|].
      apply Z.mod_pos_bound. reflexivity.
  - rewrite read_ram_cell by lia.
    apply lookup_lt_is_Some_2, ram_cell_lt, Hwf.
Qed.

Lemma mmu_init_safe rom mmu block :
  Z.of_nat (length block) = MMU_SYSTEM_RAM_SIZE →
  Z.of_nat (length (map_slots mmu)) = MMU_NUM_SLOTS →
  Z.of_nat (length (rom_banks mmu)) = MMU_NUM_ROM_BANKS →
  mmu_safe rom (mmu_init mmu block).
Proof.
  intros Hblock Hslots Hbanks.
  destruct (mmu_init_spec mmu block Hblock Hslots Hbanks) as (Hwf & _ & _).
  destruct (mmu_init_no_rom mmu block Hblock Hslots Hbanks) as [Hs Hb].
  repeat split; try apply Hwf.
  - eapply Forall_impl; [exact Hs|]. intros r ->. exact I.
  - eapply Forall_impl; [exact Hb|]. intros r ->. exact I.
Qed.

(** X14: starting from [mmu_init], whatever images are loaded (each load
    handing over as many readable bytes as it announces) and whatever is
    written in between, every slot and bank reference stays null or points
    at a whole bank inside its image, and a read at any 16-bit address
    returns a byte without leaving the image or the RAM. *)
Theorem reads_stay_in_bounds rom raw block ops addr :
  Z.of_nat (length block) = MMU_SYSTEM_RAM_SIZE →
  Z.of_nat (length (map_slots raw)) = MMU_NUM_SLOTS →
  Z.of_nat (length (rom_banks raw)) = MMU_NUM_ROM_BANKS →
  Forall (op_safe rom) ops →
  is_u16 addr →
  ∃ mmu b, run ops (mmu_init raw block) = Some mmu
    ∧ mmu_safe rom mmu
    ∧ mmu_read_byte rom mmu addr = Some b.
Proof.
  intros Hblock Hslots Hbanks Hops Haddr.
  destruct (run_safe rom ops _ Hops (mmu_init_safe rom raw block Hblock Hslots Hbanks))
    as (mmu & Hrun & Hsafe).
  destruct (mmu_read_byte_safe rom mmu addr Hsafe Haddr) as [b Hb].
  exists mmu, b. auto.
Qed.

Lemma demo_ops_safe : Forall (op_safe demo_rom) demo_ops.
Proof. repeat constructor. exact demo_rom_image. Qed.

Lemma reads_stay_in_bounds_witness :
  ∃ mmu b, run demo_ops (mmu_init raw_mmu fresh_ram) = Some mmu
    ∧ mmu_safe demo_rom mmu
    ∧ mmu_read_byte demo_rom mmu 0xBFFF = Some b.
Proof.
  apply (reads_stay_in_bounds demo_rom raw_mmu fresh_ram demo_ops 0xBFFF).
  - reflexivity.
  - reflexivity.
  - reflexivity.
  - exact demo_ops_safe.
  - unfold is_u16. lia.
Defined.

(** ** Reading four bytes *)

Lemma add_shift_lor n lo hi :
  0 <= n → 0 <= lo < 2 ^ n → lo + Z.shiftl hi n = Z.lor lo (Z.shiftl hi n).
Proof.
  intros Hn Hlo. apply Z.add_nocarry_lor. apply Z.bits_inj'. intros i Hi.
  rewrite Z.land_spec, Z.bits_0.
  destruct (Z.lt_ge_cases i n) as [Hlt|Hge].
  - rewrite Z.shiftl_spec_low by exact Hlt. apply andb_false_r.
  - rewrite <- (Z.mod_small lo (2 ^ n)) by exact Hlo.
    rewrite Z.mod_pow2_bits_high by lia. reflexivity.
Qed.

Lemma u16_add_u16 a b : u16 (u16 a + b) = u16 (a + b).
Proof. unfold u16. apply Z.add_mod_idemp_l. lia. Qed.

(** X15: when the byte at [addr + 3] is below 0x80 (so that the shift by
    24 stays inside [int]), [mmu_read_quad] is the little-endian double
    word made of the two words [mmu_read_double] returns at [addr] and at
    [addr + 2], all addresses taken modulo 2^16. *)
Theorem read_quad_of_doubles rom mmu addr b3 :
  rom_bytes rom →
  ram_bytes mmu →
  mmu_read_byte rom mmu (u16 (addr + 3)) = Some b3 →
  b3 < 0x80 →
  mmu_read_quad rom mmu addr
  = (lo ← mmu_read_double rom mmu addr;
     hi ← mmu_read_double rom mmu (u16 (addr + 2));
     Some (Z.lor lo (Z.shiftl hi 16))).
Proof.
  intros Hrom Hram Hb3 Hsmall. unfold mmu_read_quad, mmu_read_double.
  rewrite u16_add_u16. replace (addr + 2 + 1) with (addr + 3) by lia.
  rewrite Hb3.
  destruct (mmu_read_byte rom mmu addr) as [b0|] eqn:H0; simpl; [|reflexivity].
  destruct (mmu_read_byte rom mmu (u16 (addr + 1))) as [b1|] eqn:H1; simpl;
    [|reflexivity].
  destruct (mmu_read_byte rom mmu (u16 (addr + 2))) as [b2|] eqn:H2; simpl;
    [|reflexivity].
  pose proof (mmu_read_byte_range _ _ _ _ Hrom Hram H0) as R0.
  pose proof (mmu_read_byte_range _ _ _ _ Hrom Hram H1) as R1.
  pose proof (mmu_read_byte_range _ _ _ _ Hrom Hram H2) as R2.
  pose proof (mmu_read_byte_range _ _ _ _ Hrom Hram Hb3) as R3.
  unfold is_u8 in *. unfold INT_MAX, u16, u32.
  rewrite !Z.shiftl_mul_pow2 by lia.
  case_decide as Hguard; [|lia].
  rewrite (Z.mod_small (b0 + b1 * 2 ^ 8)) by lia.
  rewrite (Z.mod_small (b2 + b3 * 2 ^ 8)) by lia.
  f_equal. rewrite <- (Z.shiftl_mul_pow2 (b2 + b3 * 2 ^ 8) 16) by lia.
  rewrite <- add_shift_lor by lia.
  rewrite Z.shiftl_mul_pow2 by lia. rewrite Z.mod_small by lia. lia.
Qed.

Lemma read_quad_of_doubles_witness :
  mmu_read_quad demo_rom demo_final 0xFFFE
  = (lo ← mmu_read_double demo_rom demo_final 0xFFFE;
     hi ← mmu_read_double demo_rom demo_final (u16 (0xFFFE + 2));
     Some (Z.lor lo (Z.shiftl hi 16))).
Proof.
  apply (read_quad_of_doubles demo_rom demo_final 0xFFFE 0x10).
  - apply (bool_decide_unpack (rom_bytes demo_rom)). vm_compute. exact I.
  - apply (bool_decide_unpack (ram_bytes demo_final)). vm_compute. exact I.
  - vm_compute. reflexivity.
  - lia.
Defined.

Example read_quad_across_the_top :
  mmu_read_quad demo_rom demo_final 0xFFFE = Some 0x10107FFF.
Proof. vm_compute. reflexivity. Qed.

(** ** The bank table dump *)

(** X16: after a load of at least one bank, the number
    [dump_bank_table] shows for bank index [i] is [i mod banks]: the dump
    gives back the bank numbers the load mirrored. *)
Theorem dump_shows_bank_numbers mmu data size :
  mmu_wf mmu →
  size mod MMU_ROM_BANK_SIZE = 0 →
  MMU_ROM_BANK_SIZE <= size →
  ∃ mmu', mmu_load_rom mmu data size = Some mmu'
    ∧ dump_bank_table mmu' data
      = (λ group,
           (λ elem,
              (8 * group + elem, Some ((8 * group + elem) mod bank_count size)))
           <$> seqZ 0 8)
        <$> seqZ 0 8.
Proof.
  intros Hwf Hmod Hsize.
  destruct (loaded_bank_total mmu data size Hwf Hmod Hsize)
    as (mmu' & Hload & _ & _ & _ & Hbank).
  exists mmu'. split; [exact Hload|]. unfold dump_bank_table.
  change (MMU_NUM_ROM_BANKS / 8) with 8.
  apply list_fmap_ext. intros i group Hg. apply lookup_seqZ in Hg as [-> Hi].
  apply list_fmap_ext. intros j elem He. apply lookup_seqZ in He as [-> Hj].
  f_equal. rewrite Hbank by (unfold MMU_NUM_ROM_BANKS; lia).
  unfold ptr_diff, loc_add. simpl. case_decide; [|contradiction]. simpl.
  f_equal. replace (loc_ofs data + _ - loc_ofs data)
    with ((8 * (0 + Z.of_nat i) + (0 + Z.of_nat j)) mod bank_count size * 2 ^ 14)
    by (unfold MMU_ROM_BANK_SIZE; lia).
  rewrite Z.shiftr_div_pow2 by lia. apply Z.div_mul. lia.
Qed.

Lemma dump_shows_bank_numbers_witness :
  ∃ mmu', mmu_load_rom demo_mmu demo_data demo_size = Some mmu'
    ∧ dump_bank_table mmu' demo_data
      = (λ group,
           (λ elem,
              (8 * group + elem, Some ((8 * group + elem) mod bank_count demo_size)))
           <$> seqZ 0 8)
        <$> seqZ 0 8.
Proof.
  apply (dump_shows_bank_numbers demo_mmu demo_data demo_size).
  - exact demo_mmu_wf.
  - reflexivity.
  - vm_compute. discriminate.
Defined.

(** * Event handling *)

(** X17: [handle_events] asks for power-off exactly when a quit event is
    pending.  It then stops at the first quit event and leaves everything
    behind it in the queue; without a quit event it empties the queue. *)
Theorem handle_events_stops_at_quit queue :
  (fst (handle_events queue) = true ↔ SDL_QUIT ∈ queue)
  ∧ (SDL_QUIT ∉ queue → handle_events queue = (false, []))
  ∧ (∀ before after,
       queue = before ++ SDL_QUIT :: after → SDL_QUIT ∉ before →
       handle_events queue = (true, after)).
Proof.
  induction queue as [|e queue (IH1 & IH2 & IH3)]; simpl.
  - repeat split.
    + discriminate.
    + intros H. inversion H.
    + intros [|x before] after Heq; discriminate.
  - case_decide as He.
    + subst e. repeat split.
      * intros _. left.
      * intros H. exfalso. apply H. left.
      * intros [|x before] after Heq Hnot.
        -- simpl in Heq. inversion Heq. reflexivity.
        -- simpl in Heq. inversion Heq. subst x. exfalso. apply Hnot. left.
    + repeat split.
      * intros H. right. apply IH1, H.
      * intros H. apply IH1. apply elem_of_cons in H as [H|H]; [congruence|exact H].
      * intros H. apply IH2. intros Hin. apply H. right. exact Hin.
      * intros [|x before] after Heq Hnot.
        -- simpl in Heq. inversion Heq. congruence.
        -- simpl in Heq. inversion Heq. subst.
           apply (IH3 before after eq_refl).
           intros Hin. apply Hnot. right. exact Hin.
Qed.

Example handle_events_demo :
  handle_events demo_queue = (true, [0x300; 0x100]).
Proof. vm_compute. reflexivity. Qed.
